(** * Mermaid visualizer: parser and layout adapter

    A shallow embedding of [MermaidParser] (src/hooks/useDebounce.ts) and
    [ELKLayoutEngine] (the layout module), with the graph model of the
    types module.

    Strings are modelled as [list ascii]: the parser's regular expressions
    and [String.prototype.trim] are written for the ASCII range, where
    [\w] is [A-Za-z0-9_] and [\s] (and the characters [trim] removes) is
    tab, line feed, vertical tab, form feed, carriage return and space.
    JavaScript numbers used as coordinates are integers here ([Z]). *)

From Stdlib Require Import List Ascii String ZArith QArith Lia Bool.
Close Scope Q_scope.
Import ListNotations.
Open Scope list_scope.

(** ** JavaScript strings *)

Abbreviation str := (list ascii).

(** A string literal as a [str]. *)
Definition s2l (s : string) : str := list_ascii_of_string s.

Definition nl : ascii := ascii_of_nat 10.

Definition is_word_char (c : ascii) : bool :=
  let n := nat_of_ascii c in
  (Nat.leb 48 n && Nat.leb n 57) || (Nat.leb 65 n && Nat.leb n 90)
  || (Nat.leb 97 n && Nat.leb n 122) || Nat.eqb n 95.

Definition is_space_char (c : ascii) : bool :=
  let n := nat_of_ascii c in
  (Nat.leb 9 n && Nat.leb n 13) || Nat.eqb n 32.

(** [c.toLowerCase()] on ASCII. *)
Definition to_lower (c : ascii) : ascii :=
  let n := nat_of_ascii c in
  if Nat.leb 65 n && Nat.leb n 90 then ascii_of_nat (n + 32) else c.

Fixpoint starts_with (p s : str) : bool :=
  match p, s with
  | [], _ => true
  | c :: p', d :: s' => Ascii.eqb c d && starts_with p' s'
  | _ :: _, [] => false
  end.

(** [s.endsWith(p)] *)
Definition ends_with (p s : str) : bool := starts_with (rev p) (rev s).

(** [s.slice(k, -k)] *)
Definition slice_inner (k : nat) (s : str) : str :=
  firstn (List.length s - k - k) (skipn k s).

Fixpoint drop_spaces (s : str) : str :=
  match s with
  | c :: s' => if is_space_char c then drop_spaces s' else s
  | [] => []
  end.

(** [s.trim()] *)
Definition trim (s : str) : str := rev (drop_spaces (rev (drop_spaces s))).

(** [s.split('\n')] *)
Fixpoint split_nl (s : str) : list str :=
  match s with
  | [] => [[]]
  | c :: s' =>
      if Ascii.eqb c nl then [] :: split_nl s'
      else match split_nl s' with
           | l :: ls => (c :: l) :: ls
           | [] => [[c]]
           end
  end.

Fixpoint str_eqb (a b : str) : bool :=
  match a, b with
  | [], [] => true
  | c :: a', d :: b' => Ascii.eqb c d && str_eqb a' b'
  | _, _ => false
  end.

(** ** Graph model (types module) *)

Inductive Shape := Rectangle | Circle | Diamond | Rounded | Stadium.

Record Point := { px : Z; py : Z }.
Record Size := { width : Z; height : Z }.

Record NodeStyle := { fill : option str; stroke : option str;
                      strokeWidth : option Z }.

Record GraphNode := {
  n_id : str;
  n_label : str;
  n_shape : Shape;
  n_position : option Point;
  n_size : option Size;
  n_style : option NodeStyle;
  n_isDragged : option bool
}.

Inductive EdgeType := Arrow | Dashed | Dotted.

Record EdgeStyle := { e_stroke : option str; e_strokeWidth : option Z }.

Record GraphEdge := {
  e_id : str;
  e_from : str;
  e_to : str;
  e_label : option str;
  e_type : option EdgeType;
  e_style : option EdgeStyle;
  e_points : option (list Point)
}.

Record Graph := { nodes : list GraphNode; edges : list GraphEdge }.

Record Bounds := { b_width : Z; b_height : Z }.

Record LayoutResult := { lr_graph : Graph; lr_bounds : Bounds }.

Record ParseError := { message : str; pe_line : option Z; pe_column : option Z }.

Record ParseResult := { pr_graph : option Graph; pr_error : option ParseError }.

(** ** Exceptions

    A thrown JavaScript value: an [Error] instance with its message, or
    any other value. [Exc A] is a computation that returns an [A] or
    throws. *)

Inductive Thrown := ErrorInstance (msg : str) | OtherValue.

Inductive Exc (A : Type) := Ok (a : A) | Throw (e : Thrown).
Arguments Ok {A} a.
Arguments Throw {A} e.

Definition exc_bind {A B} (m : Exc A) (k : A -> Exc B) : Exc B :=
  match m with Ok a => k a | Throw e => Throw e end.

Notation "x <- m ;; k" := (exc_bind m (fun x => k))
  (at level 61, m at next level, right associativity).

(** ** The parser's regular expressions

    Each regular expression of [parseFlowchartContent] is written with
    the combinators below, one combinator per regex atom, read left to
    right. A combinator consumes a prefix of the remaining input and
    returns the captured text. Every atom of these patterns has exactly
    one way to match, so backtracking never changes the outcome:
    - [\w+] followed by a bracket form or [\s]/[-]: the run must be
      maximal, since the next atom cannot start with a word character;
    - [\s*] followed by [-->], [-.->], [\|], [\w] or end of input: maximal
      for the same reason;
    - [\[[^\]]+\]] (and the [((..))], [{..}] and [\|[^\|]+\|] forms): the
      negated class cannot cross the closing character, so it stops at
      the first one;
    - the three bracket alternatives start with different characters;
    - the optional label group is greedy and, in the patterns where it
      appears, nothing after it can fail. *)

Definition M (A : Type) := str -> option (A * str).

Definition m_ret {A} (a : A) : M A := fun s => Some (a, s).
Definition m_bind {A B} (m : M A) (k : A -> M B) : M B :=
  fun s => match m s with Some (a, s') => k a s' | None => None end.

Notation "x <-- m ;;; k" := (m_bind m (fun x => k))
  (at level 61, m at next level, right associativity).

Fixpoint span (p : ascii -> bool) (s : str) : str * str :=
  match s with
  | c :: s' => if p c then let (a, b) := span p s' in (c :: a, b) else ([], s)
  | [] => ([], [])
  end.

(** [\w+] *)
Definition word1 : M str :=
  fun s => match span is_word_char s with
           | ([], _) => None
           | (w, rest) => Some (w, rest)
           end.

(** [\s*] *)
Definition spaces : M unit :=
  fun s => Some (tt, snd (span is_space_char s)).

(** A literal sequence of characters. *)
Fixpoint lit (p : str) : M unit :=
  fun s => match p, s with
           | [], _ => Some (tt, s)
           | c :: p', d :: s' => if Ascii.eqb c d then lit p' s' else None
           | _ :: _, [] => None
           end.

(** [[^x]+] *)
Definition none_of1 (x : ascii) : M str :=
  fun s => match span (fun c => negb (Ascii.eqb c x)) s with
           | ([], _) => None
           | (w, rest) => Some (w, rest)
           end.

(** [open [^close]+ close] returning the whole matched text. *)
Definition delimited (open : str) (close : ascii) (closing : str) : M str :=
  _ <-- lit open ;;; body <-- none_of1 close ;;; _ <-- lit closing ;;;
  m_ret (open ++ body ++ closing).

(** [(\[[^\]]+\]|\(\([^\)]+\)\)|\{[^}]+\})] *)
Definition bracket_form : M str :=
  fun s => match delimited (s2l "[") "]" (s2l "]") s with
           | Some r => Some r
           | None =>
               match delimited (s2l "((") ")" (s2l "))") s with
               | Some r => Some r
               | None => delimited (s2l "{") "}" (s2l "}") s
               end
           end.

(** [(?:\|([^\|]+)\|)?] *)
Definition opt_label : M (option str) :=
  fun s => match (_ <-- lit (s2l "|") ;;; l <-- none_of1 "|" ;;;
                  _ <-- lit (s2l "|") ;;; m_ret l) s with
           | Some (l, rest) => Some (Some l, rest)
           | None => Some (None, s)
           end.

(** [$] *)
Definition end_of_input : M unit :=
  fun s => match s with [] => Some (tt, []) | _ => None end.

(** [line.match(/^.../)]: the pattern anchored at the start, the
    unmatched rest ignored. *)
Definition match_line {A} (m : M A) (line : str) : option A :=
  match m line with Some (a, _) => Some a | None => None end.

(** [/^(\w+)(BRACKET)$/] *)
Definition nodeRe : M (str * str) :=
  id <-- word1 ;;; def <-- bracket_form ;;; _ <-- end_of_input ;;;
  m_ret (id, def).

(** [/^(\w+)(BRACKET)\s*-->\s*(\w+)(BRACKET)(?:\|([^\|]+)\|)?/] *)
Definition edgeWithNodesRe : M (str * str * str * str * option str) :=
  fromId <-- word1 ;;; fromDef <-- bracket_form ;;; _ <-- spaces ;;;
  _ <-- lit (s2l "-->") ;;; _ <-- spaces ;;; toId <-- word1 ;;;
  toDef <-- bracket_form ;;; label <-- opt_label ;;;
  m_ret (fromId, fromDef, toId, toDef, label).

(** [/^(\w+)\s*-->\s*\|([^\|]+)\|\s*(\w+)(BRACKET)$/] *)
Definition edgeWithLabelAndNodeRe : M (str * str * str * str) :=
  from <-- word1 ;;; _ <-- spaces ;;; _ <-- lit (s2l "-->") ;;;
  _ <-- spaces ;;; _ <-- lit (s2l "|") ;;; label <-- none_of1 "|" ;;;
  _ <-- lit (s2l "|") ;;; _ <-- spaces ;;; toId <-- word1 ;;;
  toDef <-- bracket_form ;;; _ <-- end_of_input ;;;
  m_ret (from, label, toId, toDef).

(** [/^(\w+)\s*-->\s*(\w+)(?:\|([^\|]+)\|)?/] *)
Definition edgeWithLabelRe : M (str * str * option str) :=
  from <-- word1 ;;; _ <-- spaces ;;; _ <-- lit (s2l "-->") ;;;
  _ <-- spaces ;;; to <-- word1 ;;; label <-- opt_label ;;;
  m_ret (from, to, label).

(** [/^(\w+)\s*-\.\->\s*(\w+)(?:\|([^\|]+)\|)?/] *)
Definition dashedEdgeRe : M (str * str * option str) :=
  from <-- word1 ;;; _ <-- spaces ;;; _ <-- lit (s2l "-.->") ;;;
  _ <-- spaces ;;; to <-- word1 ;;; label <-- opt_label ;;;
  m_ret (from, to, label).

(** Regex alternation [m1|m2]. *)
Definition m_alt {A} (m1 m2 : M A) : M A :=
  fun s => match m1 s with Some r => Some r | None => m2 s end.

(** A literal matched case-insensitively (the [i] flag). *)
Fixpoint lit_ci (p : str) : M unit :=
  fun s => match p, s with
           | [], _ => Some (tt, s)
           | c :: p', d :: s' =>
               if Ascii.eqb (to_lower c) (to_lower d) then lit_ci p' s' else None
           | _ :: _, [] => None
           end.

(** [\s+] *)
Definition spaces1 : M unit :=
  fun s => match span is_space_char s with
           | ([], _) => None
           | (_, rest) => Some (tt, rest)
           end.

(** [x?] for a single character. *)
Definition opt_char (c : ascii) : M unit :=
  fun s => match s with
           | d :: s' => if Ascii.eqb c d then Some (tt, s') else Some (tt, s)
           | [] => Some (tt, [])
           end.

(** [/^(graph|flowchart)\s+(TB|TD|BT|RL|LR)\s*\n?/i] *)
Definition headerRe : M unit :=
  _ <-- m_alt (lit_ci (s2l "graph")) (lit_ci (s2l "flowchart")) ;;;
  _ <-- spaces1 ;;;
  _ <-- m_alt (lit_ci (s2l "TB")) (m_alt (lit_ci (s2l "TD"))
          (m_alt (lit_ci (s2l "BT")) (m_alt (lit_ci (s2l "RL")) (lit_ci (s2l "LR"))))) ;;;
  _ <-- spaces ;;; opt_char nl.

(** ** MermaidParser *)

(** A JavaScript [Map<string, GraphNode>]: entries in insertion order;
    [set] on a present key replaces the value in place. *)
Definition NodeMap := list (str * GraphNode).

Fixpoint map_get (k : str) (m : NodeMap) : option GraphNode :=
  match m with
  | [] => None
  | (k', v) :: m' => if str_eqb k k' then Some v else map_get k m'
  end.

Definition map_has (k : str) (m : NodeMap) : bool :=
  match map_get k m with Some _ => true | None => false end.

Fixpoint map_set (k : str) (v : GraphNode) (m : NodeMap) : NodeMap :=
  match m with
  | [] => [(k, v)]
  | (k', v') :: m' =>
      if str_eqb k k' then (k', v) :: m' else (k', v') :: map_set k v m'
  end.

(** [Array.from(nodes.values())] *)
Definition map_values (m : NodeMap) : list GraphNode := map snd m.

Definition mk_node (id label : str) (shape : Shape) : GraphNode :=
  {| n_id := id; n_label := label; n_shape := shape; n_position := None;
     n_size := None; n_style := None; n_isDragged := None |}.

(** [MermaidParser.parseNodeDefinition] *)
Definition parseNodeDefinition (id nodeDef : str) : GraphNode :=
  if starts_with (s2l "[[") nodeDef && ends_with (s2l "]]") nodeDef then
    mk_node id (trim (slice_inner 2 nodeDef)) Rectangle
  else if starts_with (s2l "[") nodeDef && ends_with (s2l "]") nodeDef then
    mk_node id (trim (slice_inner 1 nodeDef)) Rectangle
  else if starts_with (s2l "((") nodeDef && ends_with (s2l "))") nodeDef then
    mk_node id (trim (slice_inner 2 nodeDef)) Circle
  else if starts_with (s2l "{") nodeDef && ends_with (s2l "}") nodeDef then
    mk_node id (trim (slice_inner 1 nodeDef)) Diamond
  else mk_node id id Rectangle.

(** [{ id: x, label: x, shape: 'rectangle' }] *)
Definition default_node (id : str) : GraphNode := mk_node id id Rectangle.

(** [if (!nodes.has(k)) nodes.set(k, default)] *)
Definition ensure_node (k : str) (m : NodeMap) : NodeMap :=
  if map_has k m then m else map_set k (default_node k) m.

Definition mk_edge (from to : str) (label : option str) (ty : EdgeType) : GraphEdge :=
  {| e_id := from ++ s2l "-" ++ to; e_from := from; e_to := to;
     e_label := label; e_type := Some ty; e_style := None; e_points := None |}.

Record PState := { ps_nodes : NodeMap; ps_edges : list GraphEdge }.

(** One iteration of the loop of [parseFlowchartContent]. *)
Definition parse_line (st : PState) (line : str) : PState :=
  let '{| ps_nodes := nodes; ps_edges := edges |} := st in
  match match_line nodeRe line with
  | Some (id, nodeDef) =>
      {| ps_nodes := map_set id (parseNodeDefinition id nodeDef) nodes;
         ps_edges := edges |}
  | None =>
  match match_line edgeWithNodesRe line with
  | Some (fromId, fromNodeDef, toId, toNodeDef, label) =>
      let nodes1 := map_set fromId (parseNodeDefinition fromId fromNodeDef) nodes in
      let nodes2 := map_set toId (parseNodeDefinition toId toNodeDef) nodes1 in
      {| ps_nodes := nodes2;
         ps_edges := edges ++ [mk_edge fromId toId (option_map trim label) Arrow] |}
  | None =>
  match match_line edgeWithLabelAndNodeRe line with
  | Some (from, label, toId, toNodeDef) =>
      let nodes1 := ensure_node from nodes in
      let nodes2 := map_set toId (parseNodeDefinition toId toNodeDef) nodes1 in
      {| ps_nodes := nodes2;
         ps_edges := edges ++ [mk_edge from toId (Some (trim label)) Arrow] |}
  | None =>
  match match_line edgeWithLabelRe line with
  | Some (from, to, label) =>
      {| ps_nodes := ensure_node to (ensure_node from nodes);
         ps_edges := edges ++ [mk_edge from to (option_map trim label) Arrow] |}
  | None =>
  match match_line dashedEdgeRe line with
  | Some (from, to, label) =>
      {| ps_nodes := ensure_node to (ensure_node from nodes);
         ps_edges := edges ++ [mk_edge from to (option_map trim label) Dashed] |}
  | None => st
  end end end end end.

(** [code.split('\n').map(line => line.trim())
       .filter(line => line && !line.startsWith('%%'))] *)
Definition content_lines (code : str) : list str :=
  filter (fun line => negb (str_eqb line []) && negb (starts_with (s2l "%%") line))
         (map trim (split_nl code)).

(** [MermaidParser.parseFlowchartContent] *)
Definition parseFlowchartContent (code : str) : Graph :=
  let st := fold_left parse_line (content_lines code)
                      {| ps_nodes := []; ps_edges := [] |} in
  {| nodes := map_values (ps_nodes st); edges := ps_edges st |}.

(** [MermaidParser.cleanMermaidCode]: [replace] of the first match of
    the header pattern by the empty string, then [trim]. *)
Definition cleanMermaidCode (code : str) : str :=
  trim (match headerRe code with Some (_, rest) => rest | None => code end).

Definition error_result (msg : str) : ParseResult :=
  {| pr_graph := None;
     pr_error := Some {| message := msg; pe_line := None; pe_column := None |} |}.

(** The [try] block of [MermaidParser.parse]. *)
Definition parse_try (mermaidCode : str) : Exc ParseResult :=
  if str_eqb (trim mermaidCode) [] then Ok (error_result (s2l "Empty Mermaid code"))
  else
    let cleanCode := cleanMermaidCode mermaidCode in
    let g := parseFlowchartContent cleanCode in
    Ok {| pr_graph := Some g; pr_error := None |}.

(** [error instanceof Error ? error.message : 'Unknown parsing error'] *)
Definition thrown_message (e : Thrown) : str :=
  match e with
  | ErrorInstance msg => msg
  | OtherValue => s2l "Unknown parsing error"
  end.

(** [MermaidParser.parse] *)
Definition parse (mermaidCode : str) : ParseResult :=
  match parse_try mermaidCode with
  | Ok r => r
  | Throw e => error_result (thrown_message e)
  end.

(** Input text from its lines, joined by line feeds. *)
Fixpoint join_lines (ls : list string) : str :=
  match ls with
  | [] => []
  | [l] => s2l l
  | l :: ls' => s2l l ++ nl :: join_lines ls'
  end.


(** ** ELKLayoutEngine *)

Open Scope Z_scope.

(** The JSON graph exchanged with the external ELK engine, with the
    properties [convertToELKGraph] writes and [convertFromELKGraph]
    reads. Absent properties are [None]. *)
Record ElkNode := {
  c_id : str;
  c_label : option str;
  c_width : option Z;
  c_height : option Z;
  c_x : option Z;
  c_y : option Z;
  c_layoutOptions : option (list (str * str));
  c_shape : option Shape
}.

Record ElkLabel := { lb_text : option str; lb_layoutOptions : list (str * str) }.

Record ElkSection := { bendPoints : option (list Point) }.

Record ElkEdge := {
  ee_id : str;
  ee_sources : list str;
  ee_targets : list str;
  ee_labels : option (list ElkLabel);
  ee_sections : option (list ElkSection)
}.

Record ElkGraph := {
  eg_id : str;
  eg_layoutOptions : list (str * str);
  eg_children : option (list ElkNode);
  eg_edges : option (list ElkEdge);
  eg_width : option Z;
  eg_height : option Z
}.

(** [v || d] on a number: [undefined] and [0] are falsy. *)
Definition or_num (v : option Z) (d : Z) : Z :=
  match v with Some x => if Z.eqb x 0 then d else x | None => d end.

(** [v || d] on a string: [undefined] and [''] are falsy. *)
Definition or_str (v : option str) (d : str) : str :=
  match v with Some (_ :: _ as x) => x | _ => d end.

(** [ELKLayoutEngine.getDefaultNodeSize] *)
Definition getDefaultNodeSize (shape : Shape) : Size :=
  match shape with
  | Circle => {| width := 80; height := 80 |}
  | Diamond => {| width := 100; height := 80 |}
  | _ => {| width := 120; height := 60 |}
  end.

(** [node.isDragged] as a condition. *)
Definition truthy (b : option bool) : bool :=
  match b with Some true => true | _ => false end.

Definition elk_layout_options : list (str * str) :=
  [(s2l "elk.algorithm", s2l "layered");
   (s2l "elk.layered.spacing.nodeNodeBetweenLayers", s2l "100");
   (s2l "elk.layered.spacing.nodeNode", s2l "80");
   (s2l "elk.direction", s2l "DOWN");
   (s2l "elk.padding", s2l "[top=50,left=50,bottom=50,right=50]");
   (s2l "elk.layered.thoroughness", s2l "7");
   (s2l "elk.layered.unnecessaryBendpoints", s2l "false")].

Definition toELKChild (node : GraphNode) : ElkNode :=
  (* [node.isDragged && node.position ? node.position : undefined] *)
  let pinned := if truthy (n_isDragged node) then n_position node else None in
  {| c_id := n_id node;
     c_label := Some (n_label node);
     c_width := Some (or_num (option_map width (n_size node))
                             (width (getDefaultNodeSize (n_shape node))));
     c_height := Some (or_num (option_map height (n_size node))
                              (height (getDefaultNodeSize (n_shape node))));
     c_x := option_map px pinned;
     c_y := option_map py pinned;
     c_layoutOptions :=
       if truthy (n_isDragged node)
       then Some [(s2l "elk.position", s2l "fixed")] else None;
     c_shape := Some (n_shape node) |}.

Definition toELKEdge (edge : GraphEdge) : ElkEdge :=
  {| ee_id := e_id edge;
     ee_sources := [e_from edge];
     ee_targets := [e_to edge];
     ee_labels :=
       Some (match e_label edge with
             | Some (_ :: _ as text) =>
                 [{| lb_text := Some text;
                     lb_layoutOptions := [(s2l "elk.edge.labels.placement", s2l "CENTER")] |}]
             | _ => []
             end);
     ee_sections := None |}.

(** [ELKLayoutEngine.convertToELKGraph] *)
Definition convertToELKGraph (graph : Graph) : ElkGraph :=
  {| eg_id := s2l "root";
     eg_layoutOptions := elk_layout_options;
     eg_children := Some (map toELKChild (nodes graph));
     eg_edges := Some (map toELKEdge (edges graph));
     eg_width := None;
     eg_height := None |}.

Definition fromELKChild (originalNodes : NodeMap) (child : ElkNode) : GraphNode :=
  let originalNode := map_get (c_id child) originalNodes in
  {| n_id := c_id child;
     n_label := or_str (c_label child) (c_id child);
     n_shape := match c_shape child with
                | Some s => s
                | None => match originalNode with
                          | Some o => n_shape o
                          | None => Rectangle
                          end
                end;
     n_position := Some {| px := or_num (c_x child) 0; py := or_num (c_y child) 0 |};
     n_size := Some {| width := or_num (c_width child) 120;
                       height := or_num (c_height child) 60 |};
     n_style := None;
     n_isDragged := Some (match originalNode with
                          | Some o => truthy (n_isDragged o)
                          | None => false
                          end) |}.

(** [a[0]] of an endpoint array. The model's [GraphEdge] has string
    endpoints, so an engine answer with an empty [sources] or [targets]
    array (which would put [undefined] into the edge) is treated as a
    failed conversion. *)
Definition first_endpoint (l : list str) : Exc str :=
  match l with
  | s :: _ => Ok s
  | [] => Throw (ErrorInstance (s2l "undefined endpoint"))
  end.

Definition fromELKEdge (edge : ElkEdge) : Exc GraphEdge :=
  from <- first_endpoint (ee_sources edge) ;;
  to <- first_endpoint (ee_targets edge) ;;
  Ok {| e_id := ee_id edge; e_from := from; e_to := to;
        e_label := match ee_labels edge with
                   | Some (l :: _) => lb_text l
                   | _ => None
                   end;
        e_type := None; e_style := None;
        e_points := Some (match ee_sections edge with
                          | Some (s :: _) =>
                              match bendPoints s with Some ps => ps | None => [] end
                          | _ => []
                          end) |}.

Fixpoint exc_map {A B} (f : A -> Exc B) (l : list A) : Exc (list B) :=
  match l with
  | [] => Ok []
  | a :: l' => b <- f a ;; bs <- exc_map f l' ;; Ok (b :: bs)
  end.

(** [ELKLayoutEngine.convertFromELKGraph] *)
Definition convertFromELKGraph (elkGraph : ElkGraph) (originalNodes : NodeMap)
  : Exc Graph :=
  let ns := match eg_children elkGraph with
            | Some cs => map (fromELKChild originalNodes) cs
            | None => []
            end in
  es <- match eg_edges elkGraph with
        | Some es => exc_map fromELKEdge es
        | None => Ok []
        end ;;
  Ok {| nodes := ns; edges := es |}.

(** [Math.ceil(a / b)] for [b > 0]. *)
Definition ceil_div (a b : Z) : Z :=
  if Z.eqb (a mod b) 0 then a / b else a / b + 1.

(** [{ ...node, position, size }] *)
Definition place_node (node : GraphNode) (pos : Point) (sz : Size) : GraphNode :=
  {| n_id := n_id node; n_label := n_label node; n_shape := n_shape node;
     n_position := Some pos; n_size := Some sz; n_style := n_style node;
     n_isDragged := n_isDragged node |}.

(** [array.map((x, index) => f(index, x))] *)
Fixpoint mapi_from {A B} (f : Z -> A -> B) (i : Z) (l : list A) : list B :=
  match l with
  | [] => []
  | a :: l' => f i a :: mapi_from f (i + 1) l'
  end.

(** [ELKLayoutEngine.fallbackLayout] *)
Definition fallbackLayout (graph : Graph) : LayoutResult :=
  let nodeWidth : Z := 120 in
  let nodeHeight : Z := 60 in
  let horizontalSpacing : Z := 150 in
  let verticalSpacing : Z := 100 in
  let nodesPerRow : Z := 4 in
  let ns := mapi_from (fun index node =>
              place_node node
                {| px := (index mod nodesPerRow) * horizontalSpacing + 50;
                   py := (index / nodesPerRow) * verticalSpacing + 50 |}
                {| width := nodeWidth; height := nodeHeight |})
              0%Z (nodes graph) in
  let maxRow := ceil_div (Z.of_nat (List.length (nodes graph))) nodesPerRow in
  {| lr_graph := {| nodes := ns; edges := edges graph |};
     lr_bounds := {| b_width := nodesPerRow * horizontalSpacing + 100;
                     b_height := maxRow * verticalSpacing + 100 |} |}.

(** [new Map(graph.nodes.map(node => [node.id, node]))] *)
Definition original_nodes (graph : Graph) : NodeMap :=
  fold_left (fun m node => map_set (n_id node) node m) (nodes graph) [].

(** What [layout] does besides computing its result: calling the
    engine, and the [console.warn] before falling back. *)
Inductive Event := EngineCall (input : ElkGraph) | FallbackWarning (error : Thrown).

(** [ELKLayoutEngine.layout], with the external [elk.layout] as a
    parameter: it resolves with a graph or rejects ([Throw]). The result
    is the trace of events and the outcome of the returned promise
    ([Ok]: resolves, [Throw]: rejects). *)
Definition layout (elk_layout : ElkGraph -> Exc ElkGraph) (graph : Graph)
  : list Event * Exc LayoutResult :=
  match nodes graph with
  | [] => ([], Ok {| lr_graph := {| nodes := []; edges := [] |};
                    lr_bounds := {| b_width := 800; b_height := 600 |} |})
  | _ :: _ =>
      let originalNodes := original_nodes graph in
      let elkGraph := convertToELKGraph graph in
      let attempt :=
        layoutedGraph <- elk_layout elkGraph ;;
        result <- convertFromELKGraph layoutedGraph originalNodes ;;
        Ok {| lr_graph := result;
              lr_bounds := {| b_width := or_num (eg_width layoutedGraph) 800;
                              b_height := or_num (eg_height layoutedGraph) 600 |} |} in
      match attempt with
      | Ok r => ([EngineCall elkGraph], Ok r)
      | Throw e => ([EngineCall elkGraph; FallbackWarning e], Ok (fallbackLayout graph))
      end
  end.

(** ** App: dragging a node *)

(** [AppContent.handleNodeDrag]: the updater passed to
    [setLayoutedGraph], applied to the previous graph. *)
Definition handleNodeDrag (nodeId : str) (position : Point) (prev : Graph) : Graph :=
  {| nodes := map (fun node =>
                if str_eqb (n_id node) nodeId
                then {| n_id := n_id node; n_label := n_label node;
                        n_shape := n_shape node; n_position := Some position;
                        n_size := n_size node; n_style := n_style node;
                        n_isDragged := Some true |}
                else node) (nodes prev);
     edges := edges prev |}.

(** ** SVGRenderer: drawing an edge *)

(** [graph.nodes.find(n => n.id === id)] *)
Fixpoint find_node (id : str) (ns : list GraphNode) : option GraphNode :=
  match ns with
  | [] => None
  | n :: ns' => if str_eqb (n_id n) id then Some n else find_node id ns'
  end.

(** The attributes [SVGRenderer.renderEdge] computes for the drawn
    line, its arrow marker and its label text ([None] when the label is
    not drawn); the label sits at the midpoint of the line. *)
Record EdgeView := {
  ev_x1 : Z; ev_y1 : Z; ev_x2 : Z; ev_y2 : Z;
  ev_stroke : str;
  ev_strokeWidth : Z;
  ev_strokeDasharray : option str;
  ev_markerEnd : str;
  ev_label : option (str * Q * Q)
}.

(** [SVGRenderer.renderEdge]: [None] for [return null]. *)
Definition renderEdge (graph : Graph) (edge : GraphEdge) : option EdgeView :=
  match find_node (e_from edge) (nodes graph), find_node (e_to edge) (nodes graph) with
  | Some fromNode, Some toNode =>
      match n_position fromNode, n_position toNode with
      | Some fp, Some tp =>
          let stroke := or_str (match e_style edge with
                                | Some st => e_stroke st | None => None end) (s2l "#666") in
          let strokeWidth := or_num (match e_style edge with
                                     | Some st => e_strokeWidth st | None => None end) 2 in
          Some {| ev_x1 := px fp; ev_y1 := py fp; ev_x2 := px tp; ev_y2 := py tp;
                  ev_stroke := stroke;
                  ev_strokeWidth := strokeWidth;
                  ev_strokeDasharray :=
                    match e_type edge with Some Dashed => Some (s2l "5,5") | _ => None end;
                  ev_markerEnd := s2l "url(#arrowhead-" ++ e_id edge ++ s2l ")";
                  ev_label :=
                    match e_label edge with
                    | Some (_ :: _ as l) =>
                        Some (l, (inject_Z (px fp + px tp) / inject_Z 2)%Q,
                                 (inject_Z (py fp + py tp) / inject_Z 2)%Q)
                    | _ => None
                    end |}
      | _, _ => None
      end
  | _, _ => None
  end.

(** ** EnhancedSVGRenderer: node classification *)

(** [hay.includes(needle)] *)
Fixpoint includes (needle hay : str) : bool :=
  starts_with needle hay ||
  match hay with [] => false | _ :: hay' => includes needle hay' end.

Inductive NodeType := NtStart | NtProcess | NtDecision | NtError.

Definition is_diamond (s : Shape) : bool :=
  match s with Diamond => true | _ => false end.

(** [getNodeType] *)
Definition getNodeType (node : GraphNode) : NodeType :=
  let label := map to_lower (n_label node) in
  if includes (s2l "start") label || includes (s2l "begin") label
     || includes (s2l "end") label then NtStart
  else if is_diamond (n_shape node) then NtDecision
  else if includes (s2l "error") label || includes (s2l "fail") label then NtError
  else NtProcess.

(** An engine that answers with the graph it was given. *)
Definition echo_engine (g : ElkGraph) : Exc ElkGraph := Ok g.

(** ** Sample inputs *)

Definition sample_text : str :=
  join_lines ["graph LR"%string; "A --> B"%string; "B -->|ok| C{Check}"%string;
              "C -.-> A"%string; "D[Lone]"%string].

Definition sample_graph : Graph := parseFlowchartContent (cleanMermaidCode sample_text).

(** A bracket form repeated on a later line, in the [[..]] form. *)
Definition merge_text_markdown : str := join_lines ["A[First]"%string; "A[[Second]]"%string].

(** The node merge example of the spec. *)
Definition merge_text : str :=
  join_lines ["A[First]"%string; "A-->B"%string; "A[Second]"%string].

(** An engine that rejects every request. *)
Definition rejecting_engine (_ : ElkGraph) : Exc ElkGraph :=
  Throw (ErrorInstance (s2l "layout failed")).

Definition pinned_node : GraphNode :=
  {| n_id := s2l "A"; n_label := s2l "Start"; n_shape := Circle;
     n_position := Some {| px := 500; py := 500 |}; n_size := None;
     n_style := None; n_isDragged := Some true |}.

Definition pinned_graph : Graph := {| nodes := [pinned_node]; edges := [] |}.

(** An engine answer that places the boxes on a row and does not echo
    the [shape] property. *)
Definition row_child (i : Z) (c : ElkNode) : ElkNode :=
  {| c_id := c_id c; c_label := c_label c; c_width := c_width c;
     c_height := c_height c; c_x := Some (i * 200); c_y := Some 0;
     c_layoutOptions := c_layoutOptions c; c_shape := None |}.

Definition row_engine (g : ElkGraph) : Exc ElkGraph :=
  Ok {| eg_id := eg_id g; eg_layoutOptions := eg_layoutOptions g;
        eg_children := option_map (mapi_from row_child 0) (eg_children g);
        eg_edges := eg_edges g; eg_width := Some 1000; eg_height := Some 300 |}.


Definition elk_children (g : ElkGraph) : list ElkNode :=
  match eg_children g with Some cs => cs | None => [] end.

(** An engine answer that only positions boxes: each returned child is
    one of the requested children (same id), whose [shape] property is
    echoed back or dropped. *)
Definition positions_only (request answer : ElkGraph) : Prop :=
  forall c, In c (elk_children answer) ->
    exists c0, In c0 (elk_children request) /\ c_id c = c_id c0 /\
               (c_shape c = c_shape c0 \/ c_shape c = None).

Definition sample_answer : ElkGraph :=
  match row_engine (convertToELKGraph sample_graph) with
  | Ok a => a
  | Throw _ => convertToELKGraph sample_graph
  end.

Definition sample_layout_graph : Graph :=
  match convertFromELKGraph sample_answer (original_nodes sample_graph) with
  | Ok r => r
  | Throw _ => sample_graph
  end.

(** A bracket form: [[t]], [((t))] or [{t}]. *)
Definition is_bracket_form (bf : str) : Prop :=
  exists t, bf = s2l "[" ++ t ++ s2l "]" \/ bf = s2l "((" ++ t ++ s2l "))" \/
            bf = s2l "{" ++ t ++ s2l "}".

(** The first character of [s], if any, fails [p]. *)
Definition stops (p : ascii -> bool) (s : str) : Prop :=
  match s with c :: _ => p c = false | [] => True end.

(** The first edge of [sample_graph]. *)
Definition sample_edge : GraphEdge := mk_edge (s2l "A") (s2l "B") None Arrow.

(** A node of the laid-out sample graph. *)
Definition sample_layout_node : GraphNode :=
  nth 2 (nodes sample_layout_graph) (default_node []).

Definition node_summary (g : Graph) : list (str * str * Shape) :=
  map (fun n => (n_id n, n_label n, n_shape n)) (nodes g).

(** Every map entry is stored under its node's id, and every edge
    endpoint is a key of the map. *)
Definition well_linked (st : PState) : Prop :=
  (forall k v, In (k, v) (ps_nodes st) -> n_id v = k) /\
  (forall e, In e (ps_edges st) ->
     In (e_from e) (map fst (ps_nodes st)) /\ In (e_to e) (map fst (ps_nodes st))).

(** The parser's edges: [mk_edge] of an arrow or a dashed edge. *)
Definition parser_edge (e : GraphEdge) : Prop :=
  exists from to l, e = mk_edge from to l Arrow \/ e = mk_edge from to l Dashed.

Close Scope Z_scope.

(** ** Evaluations *)

Example parse_sample :
  option_map node_summary
    (pr_graph (parse (join_lines ["graph TD"%string; "  A[First] --> B{ Decide }|yes|"%string;
                                  "B -->|no| C((Stop))"%string; "%% comment"%string;
                                  "C -.-> D"%string])))
  = Some [(s2l "A", s2l "First", Rectangle); (s2l "B", s2l "Decide", Diamond);
          (s2l "C", s2l "Stop", Circle); (s2l "D", s2l "D", Rectangle)].
Proof. vm_compute. reflexivity. Qed.

(** ** Properties of the node map *)

Lemma str_eqb_eq (a b : str) : str_eqb a b = true <-> a = b.
Proof.
  revert b; induction a as [|c a IH]; intros [|d b]; simpl;
    try (split; congruence).
  rewrite andb_true_iff, IH, Ascii.eqb_eq. split.
  - intros [-> ->]; reflexivity.
  - intros H; injection H; auto.
Qed.

Lemma str_eqb_refl (a : str) : str_eqb a a = true.
Proof. apply str_eqb_eq; reflexivity. Qed.

Lemma str_eqb_neq (a b : str) : a <> b -> str_eqb a b = false.
Proof.
  intros H; destruct (str_eqb a b) eqn:E; [|reflexivity].
  apply str_eqb_eq in E; contradiction.
Qed.

Lemma map_get_set_eq (k : str) (v : GraphNode) (m : NodeMap) :
  map_get k (map_set k v m) = Some v.
Proof.
  induction m as [|[k' v'] m IH]; simpl.
  - rewrite str_eqb_refl; reflexivity.
  - destruct (str_eqb k k') eqn:E; simpl; rewrite E; auto.
Qed.

Lemma map_get_set_neq (k k' : str) (v : GraphNode) (m : NodeMap) :
  k <> k' -> map_get k (map_set k' v m) = map_get k m.
Proof.
  intros Hne; induction m as [|[k0 v0] m IH]; simpl.
  - rewrite str_eqb_neq; auto.
  - destruct (str_eqb k' k0) eqn:E; simpl.
    + apply str_eqb_eq in E; subst k0. rewrite str_eqb_neq; auto.
    + destruct (str_eqb k k0); auto.
Qed.

Lemma map_set_keys (k k' : str) (v : GraphNode) (m : NodeMap) :
  In k (map fst (map_set k' v m)) <-> k = k' \/ In k (map fst m).
Proof.
  induction m as [|[k0 v0] m IH]; simpl.
  - intuition.
  - destruct (str_eqb k' k0) eqn:E; simpl.
    + apply str_eqb_eq in E; subst k0. intuition.
    + rewrite IH. intuition.
Qed.

Lemma map_set_entries (k k' : str) (v v' : GraphNode) (m : NodeMap) :
  In (k, v) (map_set k' v' m) -> (k = k' /\ v = v') \/ In (k, v) m.
Proof.
  induction m as [|[k0 v0] m IH]; simpl.
  - intros [H|[]]; injection H; auto.
  - destruct (str_eqb k' k0) eqn:E; simpl.
    + apply str_eqb_eq in E; subst k0.
      intros [H|H]; [injection H; intros; subst; auto | auto].
    + intros [H|H]; [auto|]. destruct (IH H); auto.
Qed.

Lemma map_get_ensure (k : str) (m : NodeMap) :
  map_get k (ensure_node k m) =
  Some (match map_get k m with Some n => n | None => default_node k end).
Proof.
  unfold ensure_node, map_has.
  destruct (map_get k m) eqn:E; [assumption|].
  apply map_get_set_eq.
Qed.

Lemma map_get_ensure_neq (k k' : str) (m : NodeMap) :
  k <> k' -> map_get k (ensure_node k' m) = map_get k m.
Proof.
  intros H; unfold ensure_node.
  destruct (map_has k' m); [reflexivity|]. apply map_get_set_neq; assumption.
Qed.

Lemma parseNodeDefinition_id (id nodeDef : str) :
  n_id (parseNodeDefinition id nodeDef) = id.
Proof.
  unfold parseNodeDefinition.
  repeat match goal with |- context [if ?b then _ else _] => destruct b end;
    reflexivity.
Qed.

(** ** The parser's edge invariant *)

Lemma set_keeps_ids (k : str) (v : GraphNode) (m : NodeMap) :
  n_id v = k ->
  (forall k0 v0, In (k0, v0) m -> n_id v0 = k0) ->
  forall k0 v0, In (k0, v0) (map_set k v m) -> n_id v0 = k0.
Proof.
  intros Hv Hm k0 v0 Hin.
  destruct (map_set_entries _ _ _ _ _ Hin) as [[-> ->]|H]; auto.
Qed.

Lemma ensure_keeps_ids (k : str) (m : NodeMap) :
  (forall k0 v0, In (k0, v0) m -> n_id v0 = k0) ->
  forall k0 v0, In (k0, v0) (ensure_node k m) -> n_id v0 = k0.
Proof.
  unfold ensure_node; destruct (map_has k m); auto.
  apply set_keeps_ids; reflexivity.
Qed.

Lemma set_keys_grow (k k' : str) (v : GraphNode) (m : NodeMap) :
  In k (map fst m) -> In k (map fst (map_set k' v m)).
Proof. intros H; apply map_set_keys; auto. Qed.

Lemma set_key_in (k : str) (v : GraphNode) (m : NodeMap) :
  In k (map fst (map_set k v m)).
Proof. apply map_set_keys; auto. Qed.

Lemma map_has_in (k : str) (m : NodeMap) :
  map_has k m = true -> In k (map fst m).
Proof.
  unfold map_has; induction m as [|[k0 v0] m IH]; simpl; [discriminate|].
  destruct (str_eqb k k0) eqn:E.
  - apply str_eqb_eq in E; auto.
  - auto.
Qed.

Lemma ensure_keys_grow (k k' : str) (m : NodeMap) :
  In k (map fst m) -> In k (map fst (ensure_node k' m)).
Proof.
  unfold ensure_node; destruct (map_has k' m); auto using set_keys_grow.
Qed.

Lemma ensure_key_in (k : str) (m : NodeMap) :
  In k (map fst (ensure_node k m)).
Proof.
  unfold ensure_node; destruct (map_has k m) eqn:E.
  - apply map_has_in; assumption.
  - apply set_key_in.
Qed.

Create HintDb linked.

#[local] Hint Resolve set_keys_grow set_key_in ensure_keys_grow ensure_key_in
  set_keeps_ids ensure_keeps_ids parseNodeDefinition_id : linked.

Lemma push_edge_linked (m : NodeMap) (es : list GraphEdge) (e : GraphEdge) :
  (forall e0, In e0 es -> In (e_from e0) (map fst m) /\ In (e_to e0) (map fst m)) ->
  In (e_from e) (map fst m) -> In (e_to e) (map fst m) ->
  forall e0, In e0 (es ++ [e]) -> In (e_from e0) (map fst m) /\ In (e_to e0) (map fst m).
Proof.
  intros Hes Hf Ht e0 Hin. apply in_app_or in Hin as [Hin|[<-|[]]]; auto.
Qed.

Ltac old_edges Hes :=
  let e := fresh "e" in let He := fresh "He" in
  intros e He; destruct (Hes e He); split; eauto with linked.

Lemma parse_line_well_linked (st : PState) (line : str) :
  well_linked st -> well_linked (parse_line st line).
Proof.
  destruct st as [m es]; intros [Hids Hes]; simpl in *.
  unfold parse_line.
  destruct (match_line nodeRe line) as [[id def]|].
  { split; simpl; [eauto with linked | old_edges Hes]. }
  destruct (match_line edgeWithNodesRe line) as [[[[[f fd] t] td] l]|];
    [|destruct (match_line edgeWithLabelAndNodeRe line) as [[[[f l] t] td]|];
    [|destruct (match_line edgeWithLabelRe line) as [[[f t] l]|];
    [|destruct (match_line dashedEdgeRe line) as [[[f t] l]|];
    [|split; assumption]]]];
  (split; simpl; [eauto 6 with linked|];
   apply push_edge_linked; simpl; [old_edges Hes | eauto with linked | eauto with linked]).
Qed.


Lemma fold_parse_line_well_linked (lines : list str) (st : PState) :
  well_linked st -> well_linked (fold_left parse_line lines st).
Proof.
  revert st; induction lines as [|l lines IH]; simpl; auto.
  intros st H; apply IH, parse_line_well_linked, H.
Qed.

Lemma key_has_value (k : str) (m : NodeMap) :
  (forall k0 v0, In (k0, v0) m -> n_id v0 = k0) ->
  In k (map fst m) -> exists n, In n (map_values m) /\ n_id n = k.
Proof.
  intros Hids Hk. apply in_map_iff in Hk as [[k0 v0] [Hk Hin]]; simpl in Hk; subst k0.
  exists v0; split.
  - unfold map_values. apply in_map_iff. exists (k, v0); auto.
  - apply (Hids _ _ Hin).
Qed.

Lemma parse_graph_content (s : str) (g : Graph) :
  pr_graph (parse s) = Some g -> g = parseFlowchartContent (cleanMermaidCode s).
Proof.
  unfold parse, parse_try.
  destruct (str_eqb (trim s) []); simpl; congruence.
Qed.


Example merge_example :
  option_map node_summary (pr_graph (parse merge_text))
  = Some [(s2l "A", s2l "Second", Rectangle); (s2l "B", s2l "B", Rectangle)].
Proof. vm_compute. reflexivity. Qed.

(** ** Fallback layout arithmetic *)

Lemma nth_error_mapi_from {A B} (f : Z -> A -> B) (l : list A) :
  forall k i, nth_error (mapi_from f k l) i = option_map (f (k + Z.of_nat i)%Z) (nth_error l i).
Proof.
  induction l as [|a l IH]; intros k [|i]; simpl; auto.
  - rewrite Z.add_0_r; reflexivity.
  - rewrite IH. f_equal. f_equal. lia.
Qed.

Lemma length_mapi_from {A B} (f : Z -> A -> B) (l : list A) :
  forall k, List.length (mapi_from f k l) = List.length l.
Proof. induction l; simpl; auto. Qed.

Lemma ceil_div_bounds (a b : Z) :
  (0 < b)%Z -> ((ceil_div a b - 1) * b < a <= ceil_div a b * b)%Z.
Proof.
  intros Hb. unfold ceil_div.
  pose proof (Z.div_mod a b ltac:(lia)) as Hdm.
  pose proof (Z.mod_pos_bound a b Hb) as Hm.
  destruct (Z.eqb_spec (a mod b) 0); nia.
Qed.

(** ** String operations *)

Lemma starts_with_app (p x : str) : starts_with p (p ++ x) = true.
Proof. induction p as [|c p IH]; simpl; [reflexivity|]. rewrite Ascii.eqb_refl; exact IH. Qed.

Lemma ends_with_app (p x : str) : ends_with p (x ++ p) = true.
Proof. unfold ends_with. rewrite rev_app_distr. apply starts_with_app. Qed.

Lemma firstn_length_app (t q : str) : firstn (List.length t) (t ++ q) = t.
Proof. induction t as [|c t IH]; simpl; congruence. Qed.

Lemma slice_inner_wrap (k : nat) (p t q : str) :
  List.length p = k -> List.length q = k -> slice_inner k (p ++ t ++ q) = t.
Proof.
  intros Hp Hq. unfold slice_inner.
  rewrite skipn_app, <- Hp, skipn_all, Nat.sub_diag, skipn_O; simpl.
  rewrite !length_app.
  replace (List.length p + (List.length t + List.length q) - List.length p - List.length p)
    with (List.length t) by lia.
  apply firstn_length_app.
Qed.

Lemma starts_with_two (a b : ascii) (s : str) :
  starts_with [a; b] s = true -> starts_with [a] s = true.
Proof.
  destruct s as [|c s]; simpl; [discriminate|].
  destruct (Ascii.eqb a c); simpl; [reflexivity|discriminate].
Qed.

Lemma ends_with_two (a : ascii) (s : str) :
  ends_with [a; a] s = true -> ends_with [a] s = true.
Proof. unfold ends_with; simpl. apply starts_with_two. Qed.

Lemma starts_with_single (a : ascii) (t x : str) :
  t <> [] -> starts_with [a] (t ++ x) = starts_with [a] t.
Proof. destruct t; [congruence|reflexivity]. Qed.

Lemma wrap_cond (a b : ascii) (t : str) :
  t <> [] ->
  starts_with [a; a] (a :: t ++ [b]) && ends_with [b; b] (a :: t ++ [b])
  = starts_with [a] t && ends_with [b] t.
Proof.
  intros Hne. unfold ends_with. cbn [rev app].
  rewrite rev_unit. cbn [app starts_with]. rewrite !Ascii.eqb_refl. simpl andb.
  change (starts_with [a] (t ++ [b]) && starts_with [b] (rev t ++ [a])
          = starts_with [a] t && starts_with [b] (rev t)).
  rewrite starts_with_single by assumption.
  rewrite starts_with_single; [reflexivity|].
  intros H. apply Hne. rewrite <- (rev_involutive t), H. reflexivity.
Qed.

Ltac false_cond :=
  match goal with
  | |- context [if ?b then _ else _] =>
      let E := fresh "E" in assert (E : b = false) by reflexivity; rewrite E
  end.

(** ** Running the line patterns *)

Lemma m_bind_some {A B} (m : M A) (k : A -> M B) (s : str) (x : A) (s' : str) :
  m s = Some (x, s') -> m_bind m k s = k x s'.
Proof. unfold m_bind; intros ->; reflexivity. Qed.

Lemma m_bind_none {A B} (m : M A) (k : A -> M B) (s : str) :
  m s = None -> m_bind m k s = None.
Proof. unfold m_bind; intros ->; reflexivity. Qed.

Lemma span_app (p : ascii -> bool) (w rest : str) :
  Forall (fun c => p c = true) w -> stops p rest -> span p (w ++ rest) = (w, rest).
Proof.
  intros Hw Hr; induction Hw as [|c w Hc Hw IH]; simpl.
  - destruct rest as [|c rest]; simpl in *; [reflexivity|]. rewrite Hr; reflexivity.
  - rewrite Hc, IH; reflexivity.
Qed.

Lemma word1_app (w rest : str) :
  w <> [] -> Forall (fun c => is_word_char c = true) w -> stops is_word_char rest ->
  word1 (w ++ rest) = Some (w, rest).
Proof.
  intros Hne Hw Hr; unfold word1; rewrite span_app by assumption.
  destruct w; [contradiction|reflexivity].
Qed.

Lemma spaces_app (ws rest : str) :
  Forall (fun c => is_space_char c = true) ws -> stops is_space_char rest ->
  spaces (ws ++ rest) = Some (tt, rest).
Proof. intros Hw Hr; unfold spaces; rewrite span_app by assumption; reflexivity. Qed.

Lemma lit_app (p s : str) : lit p (p ++ s) = Some (tt, s).
Proof. induction p as [|c p IH]; simpl; [reflexivity|]. rewrite Ascii.eqb_refl; exact IH. Qed.

Lemma space_not_word (c : ascii) : is_space_char c = true -> is_word_char c = false.
Proof. destruct c as [[] [] [] [] [] [] [] []]; vm_compute; congruence. Qed.

Lemma word_not_space (c : ascii) : is_word_char c = true -> is_space_char c = false.
Proof. destruct c as [[] [] [] [] [] [] [] []]; vm_compute; congruence. Qed.

Lemma word_not_bar (c : ascii) (s : str) :
  is_word_char c = true -> lit (s2l "|") (c :: s) = None.
Proof. destruct c as [[] [] [] [] [] [] [] []]; vm_compute; congruence. Qed.

Lemma space_not_bracket (c : ascii) (s : str) :
  is_space_char c = true -> bracket_form (c :: s) = None.
Proof. destruct c as [[] [] [] [] [] [] [] []]; vm_compute; congruence. Qed.

(** The text after the source id of [a ws1 --> ...]. *)
Lemma after_source_id (ws1 rest : str) :
  Forall (fun c => is_space_char c = true) ws1 ->
  stops is_word_char (ws1 ++ s2l "-->" ++ rest) /\
  bracket_form (ws1 ++ s2l "-->" ++ rest) = None.
Proof.
  intros Hws; destruct Hws as [|c ws Hc _]; simpl.
  - split; reflexivity.
  - split; [apply space_not_word | apply space_not_bracket]; assumption.
Qed.

Lemma word_stops_space (b rest : str) :
  b <> [] -> Forall (fun c => is_word_char c = true) b -> stops is_space_char (b ++ rest).
Proof.
  intros Hne Hb; destruct Hb as [|c b Hc _]; [contradiction|].
  simpl; apply word_not_space; assumption.
Qed.

Lemma bracket_form_head (bf : str) :
  is_bracket_form bf ->
  stops is_word_char bf /\ lit (s2l "|") bf = None /\ opt_label bf = Some (None, bf).
Proof.
  intros (t & [-> | [-> | ->]]); repeat split; reflexivity.
Qed.

(** ** Node lookup in the layout's id map *)

Lemma fold_set_get_notin (k : str) (l : list GraphNode) (m : NodeMap) :
  ~ In k (map n_id l) ->
  map_get k (fold_left (fun m node => map_set (n_id node) node m) l m) = map_get k m.
Proof.
  revert m; induction l as [|n l IH]; intros m Hk; simpl in *; auto.
  rewrite IH by tauto. apply map_get_set_neq. intros ->; tauto.
Qed.

Lemma fold_set_get (n0 : GraphNode) (l : list GraphNode) (m : NodeMap) :
  NoDup (map n_id l) -> In n0 l ->
  map_get (n_id n0) (fold_left (fun m node => map_set (n_id node) node m) l m) = Some n0.
Proof.
  revert m; induction l as [|n l IH]; intros m Hnd Hin; simpl in *; [contradiction|].
  inversion Hnd as [|x xs Hnotin Hnd']; subst.
  destruct Hin as [<-|Hin].
  - rewrite fold_set_get_notin by assumption. apply map_get_set_eq.
  - apply IH; assumption.
Qed.

Lemma convertFromELKGraph_nodes (answer : ElkGraph) (orig : NodeMap) (res : Graph) :
  convertFromELKGraph answer orig = Ok res ->
  nodes res = map (fromELKChild orig) (elk_children answer).
Proof.
  unfold convertFromELKGraph, elk_children.
  destruct (match eg_edges answer with Some es => _ | None => _ end); simpl;
    [|discriminate].
  intros H; injection H; intros <-; simpl.
  destruct (eg_children answer); reflexivity.
Qed.

Lemma in_mapi_from {A B} (f : Z -> A -> B) (l : list A) (k : Z) (b : B) :
  In b (mapi_from f k l) -> exists i a, In a l /\ b = f i a.
Proof.
  revert k; induction l as [|a l IH]; intros k; simpl; [contradiction|].
  intros [<-|H].
  - exists k, a; auto.
  - destruct (IH _ H) as (i & a' & Ha & ->). exists i, a'; auto.
Qed.

Lemma row_engine_positions_only (request answer : ElkGraph) :
  row_engine request = Ok answer -> positions_only request answer.
Proof.
  unfold row_engine; intros H; injection H; intros <-.
  unfold positions_only, elk_children; simpl.
  destruct (eg_children request) as [cs|]; simpl; [|contradiction].
  intros c Hc. destruct (in_mapi_from _ _ _ _ Hc) as (i & c0 & Hc0 & ->).
  exists c0; simpl; auto.
Qed.

(** ** The layout's failure path *)

Lemma layout_on_reject (elk_layout : ElkGraph -> Exc ElkGraph) (g : Graph) (e : Thrown) :
  nodes g <> [] -> elk_layout (convertToELKGraph g) = Throw e ->
  layout elk_layout g
  = ([EngineCall (convertToELKGraph g); FallbackWarning e], Ok (fallbackLayout g)).
Proof.
  intros Hne He. unfold layout. destruct (nodes g) eqn:En; [contradiction|].
  rewrite He. reflexivity.
Qed.

(** ** Claims *)

(** C2: whenever [parse] returns a graph, the [from] and [to] of every
    edge of that graph are the id of some node of the same graph. *)
Theorem parse_edges_resolve (s : str) (g : Graph) :
  pr_graph (parse s) = Some g ->
  forall e, In e (edges g) ->
    (exists n, In n (nodes g) /\ n_id n = e_from e) /\
    (exists n, In n (nodes g) /\ n_id n = e_to e).
Proof.
  intros Hg e He. apply parse_graph_content in Hg; subst g.
  unfold parseFlowchartContent in *; simpl in *.
  set (st := fold_left parse_line _ _) in *.
  assert (Hw : well_linked st).
  { apply fold_parse_line_well_linked. split; simpl; tauto. }
  destruct Hw as [Hids Hes]. destruct (Hes e He) as [Hf Ht].
  split; apply key_has_value; assumption.
Qed.

Lemma parse_edges_resolve_witness :
  (exists n, In n (nodes sample_graph) /\ n_id n = e_from sample_edge) /\
  (exists n, In n (nodes sample_graph) /\ n_id n = e_to sample_edge).
Proof.
  apply (parse_edges_resolve sample_text sample_graph).
  - vm_compute. reflexivity.
  - vm_compute. left. reflexivity.
Defined.

(** C3 (failing input): after [A[First]] a later line [A[[Second]]]
    leaves node [A] with label [First]: the line pattern
    [\[[^\]]+\]] cannot match [[[Second]]], so the line is skipped,
    although [parseNodeDefinition] decodes the [[..]] form. *)
Theorem parse_markdown_form_not_merged :
  option_map node_summary (pr_graph (parse merge_text_markdown))
  = Some [(s2l "A", s2l "First", Rectangle)].
Proof. vm_compute. reflexivity. Qed.

(** C4: a graph with no nodes lays out, without any call to the
    engine, to the empty graph with bounds 800 x 600. *)
Theorem layout_empty_graph (elk_layout : ElkGraph -> Exc ElkGraph)
    (es : list GraphEdge) :
  layout elk_layout {| nodes := []; edges := es |}
  = ([], Ok {| lr_graph := {| nodes := []; edges := [] |};
               lr_bounds := {| b_width := 800; b_height := 600 |} |}).
Proof. reflexivity. Qed.

(** C6: [parse] returns a result with exactly one of [graph] and
    [error] set, and an exception thrown inside its [try] block becomes
    an error result carrying the exception's message. *)
Theorem parse_exactly_one (s : str) :
  (((exists g, pr_graph (parse s) = Some g) /\ pr_error (parse s) = None) \/
   (pr_graph (parse s) = None /\ (exists e, pr_error (parse s) = Some e))) /\
  (forall e, parse_try s = Throw e -> parse s = error_result (thrown_message e)).
Proof.
  split.
  - unfold parse, parse_try.
    destruct (str_eqb (trim s) []); simpl; [right | left]; eauto.
  - intros e He. unfold parse. rewrite He. reflexivity.
Qed.

Lemma parse_exactly_one_witness :
  (((exists g, pr_graph (parse sample_text) = Some g) /\ pr_error (parse sample_text) = None) \/
   (pr_graph (parse sample_text) = None /\ (exists e, pr_error (parse sample_text) = Some e))) /\
  (forall e, parse_try sample_text = Throw e ->
             parse sample_text = error_result (thrown_message e)).
Proof. apply (parse_exactly_one sample_text). Defined.

(** C7: [layout] always resolves, and when the engine rejects it
    resolves to the fallback layout. *)
Theorem layout_never_rejects (elk_layout : ElkGraph -> Exc ElkGraph) (g : Graph) :
  (exists r, snd (layout elk_layout g) = Ok r) /\
  (forall e, nodes g <> [] -> elk_layout (convertToELKGraph g) = Throw e ->
     snd (layout elk_layout g) = Ok (fallbackLayout g)).
Proof.
  split.
  - unfold layout. destruct (nodes g); [simpl; eauto|]. cbv zeta.
    match goal with
    | |- context [match ?a with Ok _ => _ | Throw _ => _ end] => destruct a
    end; simpl; eauto.
  - intros e Hne He. rewrite (layout_on_reject elk_layout g e Hne He). reflexivity.
Qed.

Lemma layout_never_rejects_witness :
  (exists r, snd (layout rejecting_engine pinned_graph) = Ok r) /\
  (forall e, nodes pinned_graph <> [] ->
     rejecting_engine (convertToELKGraph pinned_graph) = Throw e ->
     snd (layout rejecting_engine pinned_graph) = Ok (fallbackLayout pinned_graph)).
Proof. apply (layout_never_rejects rejecting_engine pinned_graph). Defined.

(** C1 (failing input): a pinned node at (500, 500) is moved to the
    first grid cell (50, 50) when the engine rejects and the fallback
    layout is used. *)
Theorem pinned_node_moved_by_fallback :
  exists r, snd (layout rejecting_engine pinned_graph) = Ok r /\
    map n_position (nodes (lr_graph r)) = [Some {| px := 50; py := 50 |}] /\
    map n_isDragged (nodes (lr_graph r)) = [Some true].
Proof. eexists. split; [reflexivity|]. split; reflexivity. Qed.

(** C5: when the engine rejects, the i-th node (from 0, in input order)
    is placed at x = (i mod 4) * 150 + 50, y = floor(i / 4) * 100 + 50
    with size 120 x 60 and its other properties kept, the edges are
    kept, and the bounds are 4 * 150 + 100 wide and
    ceil(N / 4) * 100 + 100 high for N nodes. *)
Theorem fallback_grid (elk_layout : ElkGraph -> Exc ElkGraph) (g : Graph) (e : Thrown) :
  nodes g <> [] ->
  elk_layout (convertToELKGraph g) = Throw e ->
  exists r, snd (layout elk_layout g) = Ok r /\
    List.length (nodes (lr_graph r)) = List.length (nodes g) /\
    (forall i node, nth_error (nodes g) i = Some node ->
       nth_error (nodes (lr_graph r)) i =
       Some (place_node node
               {| px := (Z.of_nat i mod 4) * 150 + 50;
                  py := (Z.of_nat i / 4) * 100 + 50 |}
               {| width := 120; height := 60 |})) /\
    edges (lr_graph r) = edges g /\
    b_width (lr_bounds r) = (4 * 150 + 100)%Z /\
    (exists rows, b_height (lr_bounds r) = (rows * 100 + 100)%Z /\
       ((rows - 1) * 4 < Z.of_nat (List.length (nodes g)) <= rows * 4)%Z).
Proof.
  intros Hne He.
  exists (fallbackLayout g).
  split; [rewrite (layout_on_reject elk_layout g e Hne He); reflexivity|].
  unfold fallbackLayout; simpl.
  split; [apply length_mapi_from|].
  split.
  { intros i node Hi. rewrite nth_error_mapi_from, Hi. reflexivity. }
  split; [reflexivity|]. split; [reflexivity|].
  eexists; split; [reflexivity|]. apply ceil_div_bounds; lia.
Qed.

Lemma fallback_grid_witness :
  exists r, snd (layout rejecting_engine pinned_graph) = Ok r /\
    List.length (nodes (lr_graph r)) = List.length (nodes pinned_graph) /\
    (forall i node, nth_error (nodes pinned_graph) i = Some node ->
       nth_error (nodes (lr_graph r)) i =
       Some (place_node node
               {| px := (Z.of_nat i mod 4) * 150 + 50;
                  py := (Z.of_nat i / 4) * 100 + 50 |}
               {| width := 120; height := 60 |})) /\
    edges (lr_graph r) = edges pinned_graph /\
    b_width (lr_bounds r) = (4 * 150 + 100)%Z /\
    (exists rows, b_height (lr_bounds r) = (rows * 100 + 100)%Z /\
       ((rows - 1) * 4 < Z.of_nat (List.length (nodes pinned_graph)) <= rows * 4)%Z).
Proof.
  apply (fallback_grid rejecting_engine pinned_graph (ErrorInstance (s2l "layout failed"))).
  - discriminate.
  - reflexivity.
Defined.

(** C8: converting a graph to the engine schema and the engine's answer
    back gives every node the shape of the input node with its id, when
    the engine only positions the requested boxes (echoing or dropping
    the [shape] property) and node ids are distinct. *)
Theorem shape_roundtrip (g : Graph) (answer : ElkGraph) (res : Graph) :
  NoDup (map n_id (nodes g)) ->
  positions_only (convertToELKGraph g) answer ->
  convertFromELKGraph answer (original_nodes g) = Ok res ->
  forall n, In n (nodes res) ->
    exists n0, In n0 (nodes g) /\ n_id n0 = n_id n /\ n_shape n0 = n_shape n.
Proof.
  intros Hnd Hpos Hconv n Hn.
  rewrite (convertFromELKGraph_nodes _ _ _ Hconv) in Hn.
  apply in_map_iff in Hn as (c & <- & Hc).
  destruct (Hpos c Hc) as (c0 & Hc0 & Hid & Hshape).
  unfold elk_children, convertToELKGraph in Hc0; simpl in Hc0.
  apply in_map_iff in Hc0 as (n0 & <- & Hn0).
  exists n0. split; [assumption|].
  unfold fromELKChild; simpl in *. rewrite Hid. split; [reflexivity|].
  destruct Hshape as [-> | ->]; [reflexivity|].
  unfold original_nodes. rewrite (fold_set_get n0 _ _ Hnd Hn0). reflexivity.
Qed.

Lemma shape_roundtrip_witness :
  exists n0, In n0 (nodes sample_graph) /\ n_id n0 = n_id sample_layout_node /\
             n_shape n0 = n_shape sample_layout_node.
Proof.
  apply (shape_roundtrip sample_graph sample_answer sample_layout_graph).
  - vm_compute. repeat (constructor; [simpl; intuition discriminate|]). constructor.
  - apply row_engine_positions_only. reflexivity.
  - vm_compute. reflexivity.
  - vm_compute. right. right. left. reflexivity.
Defined.

(** C9: decoding a bracket form. [[[t]]] and [[t]] give a rectangle,
    [((t))] a circle and [{t}] a diamond, labelled with [t] trimmed (for
    [[t]] whose [t] is itself wrapped in [[..]], the [[[..]]] form takes
    precedence, still a rectangle); any other text, the empty text
    included, gives a rectangle labelled with the id. *)
Theorem parseNodeDefinition_shapes (id t : str) :
  parseNodeDefinition id (s2l "[[" ++ t ++ s2l "]]") = mk_node id (trim t) Rectangle /\
  n_shape (parseNodeDefinition id (s2l "[" ++ t ++ s2l "]")) = Rectangle /\
  (starts_with (s2l "[") t && ends_with (s2l "]") t = false ->
   parseNodeDefinition id (s2l "[" ++ t ++ s2l "]") = mk_node id (trim t) Rectangle) /\
  parseNodeDefinition id (s2l "((" ++ t ++ s2l "))") = mk_node id (trim t) Circle /\
  parseNodeDefinition id (s2l "{" ++ t ++ s2l "}") = mk_node id (trim t) Diamond /\
  (forall d, starts_with (s2l "[") d && ends_with (s2l "]") d = false ->
     starts_with (s2l "((") d && ends_with (s2l "))") d = false ->
     starts_with (s2l "{") d && ends_with (s2l "}") d = false ->
     parseNodeDefinition id d = mk_node id id Rectangle).
Proof.
  unfold parseNodeDefinition.
  split; [|split; [|split; [|split; [|split]]]].
  - rewrite starts_with_app, app_assoc, ends_with_app; simpl andb.
    rewrite <- app_assoc, slice_inner_wrap by reflexivity. reflexivity.
  - destruct (_ && _); [reflexivity|].
    rewrite (starts_with_app (s2l "[")), app_assoc, ends_with_app. reflexivity.
  - intros Hb.
    assert (H1 : starts_with (s2l "[[") (s2l "[" ++ t ++ s2l "]") &&
                 ends_with (s2l "]]") (s2l "[" ++ t ++ s2l "]") = false).
    { destruct t as [|c t']; [reflexivity|].
      refine (eq_trans _ Hb).
      exact (wrap_cond "["%char "]"%char (c :: t') ltac:(discriminate)). }
    rewrite H1, (starts_with_app (s2l "[")), app_assoc, ends_with_app; simpl andb.
    rewrite <- app_assoc, slice_inner_wrap by reflexivity. reflexivity.
  - false_cond. false_cond.
    rewrite (starts_with_app (s2l "((")), app_assoc, ends_with_app; simpl andb.
    rewrite <- app_assoc, slice_inner_wrap by reflexivity. reflexivity.
  - false_cond. false_cond. false_cond.
    rewrite (starts_with_app (s2l "{")), app_assoc, ends_with_app; simpl andb.
    rewrite <- app_assoc, slice_inner_wrap by reflexivity. reflexivity.
  - intros d H1 H2 H3. rewrite H1, H2, H3.
    destruct (starts_with (s2l "[[") d) eqn:Es; [|reflexivity].
    destruct (ends_with (s2l "]]") d) eqn:Ee; [|reflexivity].
    apply starts_with_two in Es. apply ends_with_two in Ee.
    change (starts_with ["["%char] d && ends_with ["]"%char] d = false) in H1.
    rewrite Es, Ee in H1. discriminate.
Qed.

(** C10: a line [a --> b] followed by a bracket form and no [|label|]
    is taken by the plain-edge pattern: it appends an unlabelled arrow
    edge from [a] to [b], registers [a] and [b] as default rectangles
    labelled with their ids when they are not registered yet, and the
    bracket form does not reach the node of [b]. *)
Theorem plain_edge_drops_target_form (st : PState) (a b ws1 ws2 bf : str) :
  a <> [] -> Forall (fun c => is_word_char c = true) a ->
  b <> [] -> Forall (fun c => is_word_char c = true) b ->
  Forall (fun c => is_space_char c = true) ws1 ->
  Forall (fun c => is_space_char c = true) ws2 ->
  is_bracket_form bf ->
  parse_line st (a ++ ws1 ++ s2l "-->" ++ ws2 ++ b ++ bf) =
    {| ps_nodes := ensure_node b (ensure_node a (ps_nodes st));
       ps_edges := ps_edges st ++ [mk_edge a b None Arrow] |} /\
  map_get b (ps_nodes (parse_line st (a ++ ws1 ++ s2l "-->" ++ ws2 ++ b ++ bf))) =
    Some (match map_get b (ps_nodes st) with Some n => n | None => default_node b end).
Proof.
  intros Ha Hwa Hb Hwb Hws1 Hws2 Hbf.
  set (rest2 := s2l "-->" ++ ws2 ++ b ++ bf).
  destruct (after_source_id ws1 (ws2 ++ b ++ bf) Hws1) as [Hstop Hnob].
  fold rest2 in Hstop, Hnob.
  pose proof (word1_app a (ws1 ++ rest2) Ha Hwa Hstop) as Hw1.
  destruct (bracket_form_head bf Hbf) as (Hbw & Hbar & Hopt).
  pose proof (word_stops_space b bf Hb Hwb) as Hbs.
  assert (Hsp1 : spaces (ws1 ++ rest2) = Some (tt, rest2))
    by (apply spaces_app; [assumption | reflexivity]).
  assert (Hsp2 : spaces (ws2 ++ b ++ bf) = Some (tt, b ++ bf))
    by (apply spaces_app; assumption).
  pose proof (word1_app b bf Hb Hwb Hbw) as Hw2.
  assert (Hlit : lit (s2l "-->") rest2 = Some (tt, ws2 ++ b ++ bf)) by apply lit_app.
  assert (Hbar2 : lit (s2l "|") (b ++ bf) = None).
  { destruct Hwb as [|c b' Hc _]; [contradiction|]. apply word_not_bar; assumption. }
  assert (H1 : match_line nodeRe (a ++ ws1 ++ rest2) = None).
  { unfold match_line, nodeRe.
    rewrite (m_bind_some _ _ _ _ _ Hw1), (m_bind_none _ _ _ Hnob). reflexivity. }
  assert (H2 : match_line edgeWithNodesRe (a ++ ws1 ++ rest2) = None).
  { unfold match_line, edgeWithNodesRe.
    rewrite (m_bind_some _ _ _ _ _ Hw1), (m_bind_none _ _ _ Hnob). reflexivity. }
  assert (H3 : match_line edgeWithLabelAndNodeRe (a ++ ws1 ++ rest2) = None).
  { unfold match_line, edgeWithLabelAndNodeRe.
    rewrite (m_bind_some _ _ _ _ _ Hw1), (m_bind_some _ _ _ _ _ Hsp1),
      (m_bind_some _ _ _ _ _ Hlit), (m_bind_some _ _ _ _ _ Hsp2),
      (m_bind_none _ _ _ Hbar2). reflexivity. }
  assert (H4 : match_line edgeWithLabelRe (a ++ ws1 ++ rest2) = Some (a, b, None)).
  { unfold match_line, edgeWithLabelRe.
    rewrite (m_bind_some _ _ _ _ _ Hw1), (m_bind_some _ _ _ _ _ Hsp1),
      (m_bind_some _ _ _ _ _ Hlit), (m_bind_some _ _ _ _ _ Hsp2),
      (m_bind_some _ _ _ _ _ Hw2), (m_bind_some _ _ _ _ _ Hopt). reflexivity. }
  assert (Hstep : parse_line st (a ++ ws1 ++ rest2) =
    {| ps_nodes := ensure_node b (ensure_node a (ps_nodes st));
       ps_edges := ps_edges st ++ [mk_edge a b None Arrow] |}).
  { destruct st as [m es]. unfold parse_line. rewrite H1, H2, H3, H4. reflexivity. }
  split; [exact Hstep|].
  rewrite Hstep; simpl. rewrite map_get_ensure.
  destruct (list_eq_dec ascii_dec a b) as [<-|Hne].
  - rewrite map_get_ensure. reflexivity.
  - rewrite map_get_ensure_neq by congruence. reflexivity.
Qed.

Lemma plain_edge_drops_target_form_witness :
  parse_line {| ps_nodes := []; ps_edges := [] |}
    (s2l "A" ++ s2l " " ++ s2l "-->" ++ s2l " " ++ s2l "B" ++ s2l "{Decision}") =
    {| ps_nodes := ensure_node (s2l "B") (ensure_node (s2l "A") []);
       ps_edges := [] ++ [mk_edge (s2l "A") (s2l "B") None Arrow] |} /\
  map_get (s2l "B") (ps_nodes (parse_line {| ps_nodes := []; ps_edges := [] |}
    (s2l "A" ++ s2l " " ++ s2l "-->" ++ s2l " " ++ s2l "B" ++ s2l "{Decision}"))) =
    Some (match map_get (s2l "B") [] with Some n => n | None => default_node (s2l "B") end).
Proof.
  apply (plain_edge_drops_target_form {| ps_nodes := []; ps_edges := [] |}
           (s2l "A") (s2l "B") (s2l " ") (s2l " ") (s2l "{Decision}"));
    try discriminate; try (repeat constructor).
  exists (s2l "Decision"). right; right. reflexivity.
Defined.

Lemma parseNodeDefinition_shapes_witness :
  parseNodeDefinition (s2l "A") (s2l "[" ++ s2l " Rect " ++ s2l "]")
  = mk_node (s2l "A") (trim (s2l " Rect ")) Rectangle /\
  parseNodeDefinition (s2l "A") (s2l "(Round)") = mk_node (s2l "A") (s2l "A") Rectangle.
Proof.
  destruct (parseNodeDefinition_shapes (s2l "A") (s2l " Rect "))
    as (_ & _ & Hrect & _ & _ & Hdef).
  split; [apply Hrect; reflexivity|].
  apply Hdef; reflexivity.
Defined.

(** * Further properties of the code *)

(** ** Distinct node ids and edge shape *)

Lemma map_set_nodup (k : str) (v : GraphNode) (m : NodeMap) :
  NoDup (map fst m) -> NoDup (map fst (map_set k v m)).
Proof.
  induction m as [|[k0 v0] m IH]; simpl; intros Hnd.
  - repeat constructor; simpl; tauto.
  - inversion Hnd as [|x xs Hnotin Hnd']; subst.
    destruct (str_eqb k k0) eqn:E; simpl; constructor; auto.
    rewrite map_set_keys. intros [->|H]; [|contradiction].
    rewrite str_eqb_refl in E; discriminate.
Qed.

Lemma ensure_nodup (k : str) (m : NodeMap) :
  NoDup (map fst m) -> NoDup (map fst (ensure_node k m)).
Proof. unfold ensure_node; destruct (map_has k m); auto using map_set_nodup. Qed.

Lemma values_ids (m : NodeMap) :
  (forall k v, In (k, v) m -> n_id v = k) -> map n_id (map_values m) = map fst m.
Proof.
  unfold map_values; induction m as [|[k v] m IH]; simpl; intros H; [reflexivity|].
  rewrite (H k v (or_introl eq_refl)), IH; auto.
Qed.

Lemma parse_line_nodup (st : PState) (line : str) :
  NoDup (map fst (ps_nodes st)) -> NoDup (map fst (ps_nodes (parse_line st line))).
Proof.
  destruct st as [m es]; simpl; intros Hnd. unfold parse_line.
  destruct (match_line nodeRe line) as [[id def]|]; [simpl; auto using map_set_nodup|].
  destruct (match_line edgeWithNodesRe line) as [[[[[f fd] t] td] l]|];
    [simpl; auto using map_set_nodup|].
  destruct (match_line edgeWithLabelAndNodeRe line) as [[[[f l] t] td]|];
    [simpl; auto using map_set_nodup, ensure_nodup|].
  destruct (match_line edgeWithLabelRe line) as [[[f t] l]|];
    [simpl; auto using ensure_nodup|].
  destruct (match_line dashedEdgeRe line) as [[[f t] l]|];
    simpl; auto using ensure_nodup.
Qed.

Lemma parse_line_edges (st : PState) (line : str) (m' : NodeMap) :
  ps_edges (parse_line st line)
  = ps_edges st ++ ps_edges (parse_line {| ps_nodes := m'; ps_edges := [] |} line).
Proof.
  destruct st as [m es]; unfold parse_line.
  destruct (match_line nodeRe line) as [[id def]|]; [simpl; rewrite app_nil_r; reflexivity|].
  destruct (match_line edgeWithNodesRe line) as [[[[[f fd] t] td] l]|]; [reflexivity|].
  destruct (match_line edgeWithLabelAndNodeRe line) as [[[[f l] t] td]|]; [reflexivity|].
  destruct (match_line edgeWithLabelRe line) as [[[f t] l]|]; [reflexivity|].
  destruct (match_line dashedEdgeRe line) as [[[f t] l]|]; [reflexivity|].
  simpl; rewrite app_nil_r; reflexivity.
Qed.

Lemma parse_line_new_edges (line : str) (m : NodeMap) :
  Forall parser_edge (ps_edges (parse_line {| ps_nodes := m; ps_edges := [] |} line)) /\
  List.length (ps_edges (parse_line {| ps_nodes := m; ps_edges := [] |} line)) <= 1.
Proof.
  unfold parse_line.
  destruct (match_line nodeRe line) as [[id def]|]; [simpl; auto|].
  destruct (match_line edgeWithNodesRe line) as [[[[[f fd] t] td] l]|];
    [simpl; split; [repeat constructor; do 3 eexists; left; reflexivity|auto]|].
  destruct (match_line edgeWithLabelAndNodeRe line) as [[[[f l] t] td]|];
    [simpl; split; [repeat constructor; do 3 eexists; left; reflexivity|auto]|].
  destruct (match_line edgeWithLabelRe line) as [[[f t] l]|];
    [simpl; split; [repeat constructor; do 3 eexists; left; reflexivity|auto]|].
  destruct (match_line dashedEdgeRe line) as [[[f t] l]|];
    [simpl; split; [repeat constructor; do 3 eexists; right; reflexivity|auto]|].
  simpl; auto.
Qed.

Lemma fold_parse_line_edges (lines : list str) :
  forall (st : PState) (m' : NodeMap),
  ps_edges (fold_left parse_line lines st)
  = ps_edges st ++ ps_edges (fold_left parse_line lines {| ps_nodes := m'; ps_edges := [] |}).
Proof.
  induction lines as [|l lines IH]; intros st m'; cbn [fold_left].
  - rewrite app_nil_r; reflexivity.
  - rewrite (IH (parse_line st l) []), (IH (parse_line _ l) []).
    rewrite (parse_line_edges st l m'), app_assoc. reflexivity.
Qed.

Lemma fold_parse_line_inv (lines : list str) (st : PState) :
  well_linked st -> NoDup (map fst (ps_nodes st)) -> Forall parser_edge (ps_edges st) ->
  well_linked (fold_left parse_line lines st) /\
  NoDup (map fst (ps_nodes (fold_left parse_line lines st))) /\
  Forall parser_edge (ps_edges (fold_left parse_line lines st)).
Proof.
  revert st; induction lines as [|l lines IH]; simpl; auto.
  intros st Hw Hnd Hes. apply IH.
  - apply parse_line_well_linked; assumption.
  - apply parse_line_nodup; assumption.
  - rewrite (parse_line_edges st l []). apply Forall_app; split; [assumption|].
    apply parse_line_new_edges.
Qed.

Lemma parse_content_inv (code : str) :
  let st := fold_left parse_line (content_lines code) {| ps_nodes := []; ps_edges := [] |} in
  well_linked st /\ NoDup (map fst (ps_nodes st)) /\ Forall parser_edge (ps_edges st).
Proof.
  apply fold_parse_line_inv; [split; simpl; tauto|constructor|constructor].
Qed.

(** ** Lines *)

Lemma split_nl_nonempty (s : str) : split_nl s <> [].
Proof.
  induction s as [|c s IH]; simpl; [discriminate|].
  destruct (Ascii.eqb c nl); [discriminate|]. destruct (split_nl s); discriminate.
Qed.

Lemma split_nl_app (a b : str) : split_nl (a ++ nl :: b) = split_nl a ++ split_nl b.
Proof.
  induction a as [|c a IH]; simpl.
  - reflexivity.
  - rewrite IH. destruct (Ascii.eqb c _); [reflexivity|].
    destruct (split_nl a) eqn:E; [destruct (split_nl_nonempty a E)|reflexivity].
Qed.

Lemma split_nl_single (c : str) : ~ In nl c -> split_nl c = [c].
Proof.
  induction c as [|d c IH]; simpl; intros H; [reflexivity|].
  change (Ascii.eqb d nl) with (Ascii.eqb d nl).
  destruct (Ascii.eqb_spec d nl) as [->|Hne]; [tauto|].
  rewrite IH by tauto; reflexivity.
Qed.

Lemma content_lines_app (a b : str) :
  content_lines (a ++ nl :: b) = content_lines a ++ content_lines b.
Proof. unfold content_lines. rewrite split_nl_app, map_app, filter_app; reflexivity. Qed.

(** ** Header removal *)

Lemma lit_ci_app (p q r : str) :
  List.length p <= List.length q ->
  lit_ci p (q ++ r)
  = if str_eqb (map to_lower p) (map to_lower (firstn (List.length p) q))
    then Some (tt, skipn (List.length p) q ++ r) else None.
Proof.
  revert q; induction p as [|c p IH]; intros q Hlen; [reflexivity|].
  destruct q as [|d q]; simpl in Hlen; [lia|].
  simpl. destruct (Ascii.eqb (to_lower c) (to_lower d)); simpl; [|reflexivity].
  apply IH; lia.
Qed.

Lemma snd_span_spaces (s : str) : snd (span is_space_char s) = drop_spaces s.
Proof.
  induction s as [|c s IH]; simpl; [reflexivity|].
  destruct (is_space_char c); [|reflexivity].
  destruct (span is_space_char s); exact IH.
Qed.

Lemma drop_spaces_idem (s : str) : drop_spaces (drop_spaces s) = drop_spaces s.
Proof.
  induction s as [|c s IH]; simpl; [reflexivity|].
  destruct (is_space_char c) eqn:E; [exact IH|simpl; rewrite E; reflexivity].
Qed.

Lemma drop_spaces_head (s : str) :
  match drop_spaces s with c :: _ => is_space_char c = false | [] => True end.
Proof.
  induction s as [|c s IH]; simpl; [exact I|].
  destruct (is_space_char c) eqn:E; [exact IH|exact E].
Qed.

Lemma trim_drop_spaces (s : str) : trim (drop_spaces s) = trim s.
Proof. unfold trim; rewrite drop_spaces_idem; reflexivity. Qed.

Lemma space_to_lower (c : ascii) : is_space_char (to_lower c) = is_space_char c.
Proof. destruct c as [[] [] [] [] [] [] [] []]; vm_compute; reflexivity. Qed.

Lemma length_to_lower (s t : str) : map to_lower s = t -> List.length s = List.length t.
Proof. intros <-; rewrite length_map; reflexivity. Qed.

Lemma to_lower_stops_space (s r : str) (l : ascii) (t : str) :
  map to_lower s = l :: t -> is_space_char l = false -> stops is_space_char (s ++ r).
Proof.
  destruct s as [|c s]; simpl; [discriminate|]. intros H Hl; injection H; intros _ <-.
  rewrite space_to_lower in Hl; exact Hl.
Qed.

Lemma opt_nl_after_spaces (rest : str) :
  opt_char nl (drop_spaces rest) = Some (tt, drop_spaces rest).
Proof.
  pose proof (drop_spaces_head rest) as H.
  destruct (drop_spaces rest) as [|d s]; [reflexivity|].
  unfold opt_char. destruct (Ascii.eqb_spec nl d) as [<-|]; [discriminate|reflexivity].
Qed.

Lemma lit_ci_eq (p q r : str) :
  map to_lower p = map to_lower q -> lit_ci p (q ++ r) = Some (tt, r).
Proof.
  revert q; induction p as [|c p IH]; intros [|d q] H; simpl in H; try discriminate;
    [reflexivity|].
  injection H; intros Hpq Hcd. simpl. rewrite Hcd, Ascii.eqb_refl. apply IH, Hpq.
Qed.

Lemma lit_ci_neq (p q r : str) :
  List.length p <= List.length q ->
  str_eqb (map to_lower p) (firstn (List.length p) (map to_lower q)) = false ->
  lit_ci p (q ++ r) = None.
Proof. intros Hl Hne. rewrite lit_ci_app, <- firstn_map, Hne by exact Hl. reflexivity. Qed.

Ltac run_lit_ci H :=
  repeat (first [ rewrite lit_ci_eq by (rewrite H; reflexivity)
                | rewrite lit_ci_neq
                    by (rewrite ?H, ?(length_to_lower _ _ H); reflexivity || (simpl; lia)) ];
          cbv beta iota).

Lemma header_keyword (kw rest : str) :
  In (map to_lower kw) [s2l "graph"; s2l "flowchart"] ->
  m_alt (lit_ci (s2l "graph")) (lit_ci (s2l "flowchart")) (kw ++ rest) = Some (tt, rest).
Proof.
  intros [H|[H|[]]]; symmetry in H; unfold m_alt; run_lit_ci H; reflexivity.
Qed.

Lemma header_direction (dir rest : str) :
  In (map to_lower dir) [s2l "tb"; s2l "td"; s2l "bt"; s2l "rl"; s2l "lr"] ->
  m_alt (lit_ci (s2l "TB")) (m_alt (lit_ci (s2l "TD"))
    (m_alt (lit_ci (s2l "BT")) (m_alt (lit_ci (s2l "RL")) (lit_ci (s2l "LR")))))
    (dir ++ rest) = Some (tt, rest).
Proof.
  intros [H|[H|[H|[H|[H|[]]]]]]; symmetry in H; unfold m_alt; run_lit_ci H; reflexivity.
Qed.

(** X1: [cleanMermaidCode] removes a leading header made of [graph] or
    [flowchart] in any letter case, one or more spaces and a direction
    [TB], [TD], [BT], [RL] or [LR] in any letter case, and returns the
    rest of the text trimmed. *)
Theorem cleanMermaidCode_header (kw ws dir rest : str) :
  In (map to_lower kw) [s2l "graph"; s2l "flowchart"] ->
  ws <> [] -> Forall (fun c => is_space_char c = true) ws ->
  In (map to_lower dir) [s2l "tb"; s2l "td"; s2l "bt"; s2l "rl"; s2l "lr"] ->
  cleanMermaidCode (kw ++ ws ++ dir ++ rest) = trim rest.
Proof.
  intros Hkw Hne Hws Hdir. unfold cleanMermaidCode, headerRe.
  rewrite (m_bind_some _ _ _ tt (ws ++ dir ++ rest)) by (apply header_keyword, Hkw).
  assert (Hstop : stops is_space_char (dir ++ rest)).
  { destruct Hdir as [H|[H|[H|[H|[H|[]]]]]];
      apply (to_lower_stops_space _ _ _ _ (eq_sym H)); reflexivity. }
  rewrite (m_bind_some _ _ _ tt (dir ++ rest)).
  2:{ unfold spaces1. rewrite span_app by assumption. destruct ws; [contradiction|reflexivity]. }
  rewrite (m_bind_some _ _ _ tt rest) by (apply header_direction, Hdir).
  rewrite (m_bind_some _ _ _ tt (drop_spaces rest))
    by (unfold spaces; rewrite snd_span_spaces; reflexivity).
  rewrite opt_nl_after_spaces. apply trim_drop_spaces.
Qed.

(** X2: the nodes of a parsed graph have pairwise distinct ids. *)
Theorem parse_node_ids_distinct (s : str) (g : Graph) :
  pr_graph (parse s) = Some g -> NoDup (map n_id (nodes g)).
Proof.
  intros Hg. apply parse_graph_content in Hg; subst g.
  unfold parseFlowchartContent; simpl.
  destruct (parse_content_inv (cleanMermaidCode s)) as [[Hids _] [Hnd _]].
  rewrite values_ids by assumption. assumption.
Qed.

(** X3: every edge of a parsed graph has the id [from-to], the type
    arrow or dashed (never dotted), and no style and no points. *)
Theorem parse_edge_forms (s : str) (g : Graph) :
  pr_graph (parse s) = Some g ->
  forall e, In e (edges g) ->
    e_id e = e_from e ++ s2l "-" ++ e_to e /\
    (e_type e = Some Arrow \/ e_type e = Some Dashed) /\
    e_style e = None /\ e_points e = None.
Proof.
  intros Hg e He. apply parse_graph_content in Hg; subst g.
  unfold parseFlowchartContent in He; simpl in He.
  destruct (parse_content_inv (cleanMermaidCode s)) as [_ [_ Hes]].
  rewrite Forall_forall in Hes. destruct (Hes e He) as (f & t & l & [-> | ->]);
    simpl; auto.
Qed.



(** X6: splitting the content at a line break, the edges of the whole
    are the edges of the first part followed by those of the second. *)
Theorem parse_edges_concat (a b : str) :
  edges (parseFlowchartContent (a ++ nl :: b))
  = edges (parseFlowchartContent a) ++ edges (parseFlowchartContent b).
Proof.
  unfold parseFlowchartContent; simpl.
  rewrite content_lines_app, fold_left_app. apply fold_parse_line_edges.
Qed.

(** X7: a line of content keeps the edges found so far as a prefix and
    adds at most one edge, and every node id registered so far stays
    registered. *)
Theorem parse_line_extends (st : PState) (line : str) :
  (exists new, ps_edges (parse_line st line) = ps_edges st ++ new /\
               List.length new <= 1) /\
  (forall k, In k (map fst (ps_nodes st)) -> In k (map fst (ps_nodes (parse_line st line)))).
Proof.
  split.
  - eexists; split; [apply (parse_line_edges st line [])|apply parse_line_new_edges].
  - destruct st as [m es]; simpl; intros k Hk. unfold parse_line.
    destruct (match_line nodeRe line) as [[id def]|]; [simpl; auto using set_keys_grow|].
    destruct (match_line edgeWithNodesRe line) as [[[[[f fd] t] td] l]|];
      [simpl; auto using set_keys_grow|].
    destruct (match_line edgeWithLabelAndNodeRe line) as [[[[f l] t] td]|];
      [simpl; auto using set_keys_grow, ensure_keys_grow|].
    destruct (match_line edgeWithLabelRe line) as [[[f t] l]|];
      [simpl; auto using ensure_keys_grow|].
    destruct (match_line dashedEdgeRe line) as [[[f t] l]|];
      simpl; auto using ensure_keys_grow.
Qed.

(** ** Layout, drag, drawing and classification *)
Open Scope Z_scope.

Lemma nth_error_fallback (g : Graph) (i : nat) (n : GraphNode) :
  nth_error (nodes (lr_graph (fallbackLayout g))) i = Some n ->
  (i < List.length (nodes g))%nat /\
  n_position n = Some {| px := (Z.of_nat i mod 4) * 150 + 50;
                         py := (Z.of_nat i / 4) * 100 + 50 |} /\
  n_size n = Some {| width := 120; height := 60 |}.
Proof.
  unfold fallbackLayout; simpl. rewrite nth_error_mapi_from.
  destruct (nth_error (nodes g) i) as [n0|] eqn:E; simpl; [|discriminate].
  intros H; injection H; intros <-. split; [|split; reflexivity].
  apply nth_error_Some; congruence.
Qed.

(** X8: in the fallback layout every node has a position and the size
    120 x 60, and its box lies inside the bounds with a margin of at
    least 50 on the left and top. *)
Theorem fallback_boxes_inside (g : Graph) (i : nat) (n : GraphNode) :
  nth_error (nodes (lr_graph (fallbackLayout g))) i = Some n ->
  exists p, n_position n = Some p /\ n_size n = Some {| width := 120; height := 60 |} /\
    50 <= px p /\ px p + 120 <= b_width (lr_bounds (fallbackLayout g)) /\
    50 <= py p /\ py p + 60 <= b_height (lr_bounds (fallbackLayout g)).
Proof.
  intros H. destruct (nth_error_fallback g i n H) as (Hi & Hp & Hs).
  eexists; split; [exact Hp|]. split; [exact Hs|]. simpl.
  pose proof (ceil_div_bounds (Z.of_nat (List.length (nodes g))) 4 ltac:(lia)) as Hc.
  set (c := ceil_div _ 4) in *.
  pose proof (Z.div_mod (Z.of_nat i) 4 ltac:(lia)).
  pose proof (Z.mod_pos_bound (Z.of_nat i) 4 ltac:(lia)).
  pose proof (Z.div_pos (Z.of_nat i) 4 ltac:(lia) ltac:(lia)).
  lia.
Qed.

(** X9: in the fallback layout the boxes of two different nodes do not
    overlap: they are more than their width apart horizontally or more
    than their height apart vertically. *)
Theorem fallback_boxes_disjoint (g : Graph) (i j : nat) (ni nj : GraphNode) :
  i <> j ->
  nth_error (nodes (lr_graph (fallbackLayout g))) i = Some ni ->
  nth_error (nodes (lr_graph (fallbackLayout g))) j = Some nj ->
  exists pi pj, n_position ni = Some pi /\ n_position nj = Some pj /\
    (px pi + 120 < px pj \/ px pj + 120 < px pi \/
     py pi + 60 < py pj \/ py pj + 60 < py pi).
Proof.
  intros Hij Hi Hj.
  destruct (nth_error_fallback g i ni Hi) as (_ & Hpi & _).
  destruct (nth_error_fallback g j nj Hj) as (_ & Hpj & _).
  do 2 eexists; split; [exact Hpi|]; split; [exact Hpj|]; simpl.
  pose proof (Z.div_mod (Z.of_nat i) 4 ltac:(lia)).
  pose proof (Z.mod_pos_bound (Z.of_nat i) 4 ltac:(lia)).
  pose proof (Z.div_mod (Z.of_nat j) 4 ltac:(lia)).
  pose proof (Z.mod_pos_bound (Z.of_nat j) 4 ltac:(lia)).
  assert (Z.of_nat i <> Z.of_nat j) by lia.
  lia.
Qed.

(** The edge the engine path gives back for an edge sent to the engine
    and returned unchanged. *)
Lemma exc_map_echo_edges (es : list GraphEdge) :
  exc_map fromELKEdge (map toELKEdge es)
  = Ok (map (fun e => {| e_id := e_id e; e_from := e_from e; e_to := e_to e;
                          e_label := match e_label e with
                                     | Some (_ :: _ as l) => Some l
                                     | _ => None
                                     end;
                          e_type := None; e_style := None; e_points := Some [] |}) es).
Proof.
  induction es as [|e es IH]; [reflexivity|]. simpl. rewrite IH. simpl.
  destruct (e_label e) as [[|c l]|]; reflexivity.
Qed.


(** X11: on the engine path, a dragged node with position [p] comes
    back at [p] and still dragged when the engine returns the
    coordinates it was sent for it (node ids distinct). *)
Theorem pinned_kept_by_engine_path (g : Graph) (answer : ElkGraph) (res : Graph)
  (n0 : GraphNode) (p : Point) (c : ElkNode) :
  NoDup (map n_id (nodes g)) -> In n0 (nodes g) ->
  n_isDragged n0 = Some true -> n_position n0 = Some p ->
  convertFromELKGraph answer (original_nodes g) = Ok res ->
  In c (elk_children answer) -> c_id c = n_id n0 ->
  c_x c = c_x (toELKChild n0) -> c_y c = c_y (toELKChild n0) ->
  exists n, In n (nodes res) /\ n_id n = n_id n0 /\
            n_position n = Some p /\ n_isDragged n = Some true.
Proof.
  intros Hnd Hin Hd Hp Hconv Hc Hid Hx Hy.
  exists (fromELKChild (original_nodes g) c). split.
  { rewrite (convertFromELKGraph_nodes _ _ _ Hconv). apply in_map; assumption. }
  unfold fromELKChild. rewrite Hid, Hx, Hy. unfold original_nodes.
  rewrite (fold_set_get n0 _ _ Hnd Hin). cbn. rewrite Hd, Hp. cbn.
  split; [reflexivity|]. split; [|reflexivity].
  destruct p as [x y]; cbn. destruct (Z.eqb_spec x 0), (Z.eqb_spec y 0); subst; reflexivity.
Qed.

(** X12: after [handleNodeDrag k p], the engine request gives the node
    [k] the coordinates of [p] and the fixed-position option. *)
Theorem drag_sends_fixed_position (k : str) (p : Point) (g : Graph) (c : ElkNode) :
  In c (elk_children (convertToELKGraph (handleNodeDrag k p g))) -> c_id c = k ->
  c_x c = Some (px p) /\ c_y c = Some (py p) /\
  c_layoutOptions c = Some [(s2l "elk.position", s2l "fixed")].
Proof.
  unfold elk_children, convertToELKGraph, handleNodeDrag; cbn.
  rewrite map_map. intros Hc Hid. apply in_map_iff in Hc as (n & <- & Hn).
  cbn in Hid. destruct (str_eqb (n_id n) k) eqn:E; cbn in *.
  - auto.
  - subst k. rewrite str_eqb_refl in E; discriminate.
Qed.

Lemma drag_map_id (k : str) (p : Point) (ns : list GraphNode) :
  ~ In k (map n_id ns) ->
  map (fun node => if str_eqb (n_id node) k
                   then {| n_id := n_id node; n_label := n_label node;
                           n_shape := n_shape node; n_position := Some p;
                           n_size := n_size node; n_style := n_style node;
                           n_isDragged := Some true |}
                   else node) ns = ns.
Proof.
  induction ns as [|n ns IH]; cbn; intros H; [reflexivity|].
  rewrite str_eqb_neq by tauto. rewrite IH by tauto. reflexivity.
Qed.

(** X13: [handleNodeDrag k p] keeps the node ids in order and the
    edges, leaves every node with another id unchanged, and leaves the
    graph unchanged when no node has the id [k]. *)
Theorem handleNodeDrag_scope (k : str) (p : Point) (g : Graph) :
  map n_id (nodes (handleNodeDrag k p g)) = map n_id (nodes g) /\
  edges (handleNodeDrag k p g) = edges g /\
  (forall i n, nth_error (nodes g) i = Some n -> n_id n <> k ->
     nth_error (nodes (handleNodeDrag k p g)) i = Some n) /\
  (~ In k (map n_id (nodes g)) -> handleNodeDrag k p g = g).
Proof.
  unfold handleNodeDrag; cbn. split; [|split; [reflexivity|split]].
  - rewrite map_map. apply map_ext. intros n. destruct (str_eqb (n_id n) k); reflexivity.
  - intros i n Hi Hne. rewrite nth_error_map, Hi. cbn. rewrite str_eqb_neq by assumption.
    reflexivity.
  - intros H. rewrite drag_map_id by assumption. destruct g; reflexivity.
Qed.

Lemma find_node_in (n : GraphNode) (l : list GraphNode) :
  In n l -> exists n', find_node (n_id n) l = Some n' /\ In n' l.
Proof.
  induction l as [|m l IH]; cbn; [contradiction|]. intros Hin.
  destruct (str_eqb (n_id m) (n_id n)) eqn:E; [exists m; auto|].
  destruct Hin as [<-|Hin]; [rewrite str_eqb_refl in E; discriminate|].
  destruct (IH Hin) as (n' & Hf & Hn'); exists n'; auto.
Qed.

Lemma in_mapi_from_intro {A B} (f : Z -> A -> B) (l : list A) (k : Z) (a : A) :
  In a l -> exists i, In (f i a) (mapi_from f k l).
Proof.
  revert k; induction l as [|a0 l IH]; intros k; cbn; [contradiction|].
  intros [<-|H]; [exists k; auto|]. destruct (IH (k + 1) H) as (i & Hi); exists i; auto.
Qed.

Lemma fallback_node_for (g : Graph) (n : GraphNode) :
  In n (nodes g) ->
  exists n', In n' (nodes (lr_graph (fallbackLayout g))) /\ n_id n' = n_id n.
Proof.
  intros Hn. unfold fallbackLayout; cbn.
  destruct (in_mapi_from_intro (fun index node => place_node node
              {| px := (index mod 4) * 150 + 50; py := (index / 4) * 100 + 50 |}
              {| width := 120; height := 60 |}) _ 0 n Hn) as (i & Hi).
  eexists; split; [exact Hi|reflexivity].
Qed.

Lemma fallback_node_placed (g : Graph) (n : GraphNode) :
  In n (nodes (lr_graph (fallbackLayout g))) -> exists p, n_position n = Some p.
Proof.
  unfold fallbackLayout; cbn. intros H.
  destruct (in_mapi_from _ _ _ _ H) as (i & a & _ & ->). eexists; reflexivity.
Qed.

Lemma endpoint_drawn (g : Graph) (k : str) :
  (exists n, In n (nodes g) /\ n_id n = k) ->
  exists n', find_node k (nodes (lr_graph (fallbackLayout g))) = Some n' /\
             exists p, n_position n' = Some p.
Proof.
  intros (n & Hn & <-). destruct (fallback_node_for g n Hn) as (n1 & Hn1 & Hid).
  destruct (find_node_in n1 _ Hn1) as (n' & Hf & Hn'). rewrite Hid in Hf.
  exists n'; split; [exact Hf|]. apply (fallback_node_placed g n' Hn').
Qed.

(** X14: after the fallback layout of a parsed graph, [renderEdge]
    draws every edge (it never returns [null]). *)
Theorem fallback_draws_parsed_edges (s : str) (g : Graph) :
  pr_graph (parse s) = Some g ->
  forall e, In e (edges (lr_graph (fallbackLayout g))) ->
    exists v, renderEdge (lr_graph (fallbackLayout g)) e = Some v.
Proof.
  intros Hg e He. cbn in He.
  assert (Hends : (exists n, In n (nodes g) /\ n_id n = e_from e) /\
                  (exists n, In n (nodes g) /\ n_id n = e_to e)).
  { apply parse_graph_content in Hg; subst g.
    unfold parseFlowchartContent in *; cbn in *.
    destruct (parse_content_inv (cleanMermaidCode s)) as [[Hids Hes] _].
    destruct (Hes e He) as [Hf Ht]. split; apply key_has_value; assumption. }
  destruct Hends as [Hf Ht].
  destruct (endpoint_drawn g _ Hf) as (nf & Ef & pf & Epf).
  destruct (endpoint_drawn g _ Ht) as (nt & Et & pt & Ept).
  unfold renderEdge. rewrite Ef, Et, Epf, Ept. eexists; reflexivity.
Qed.

Lemma includes_unfold (needle hay : str) :
  includes needle hay
  = starts_with needle hay ||
    match hay with [] => false | _ :: hay' => includes needle hay' end.
Proof. destruct hay; reflexivity. Qed.

Lemma includes_app (needle x y : str) : includes needle (x ++ needle ++ y) = true.
Proof.
  induction x as [|c x IH]; rewrite includes_unfold; cbn [app].
  - rewrite starts_with_app; reflexivity.
  - rewrite IH, orb_true_r; reflexivity.
Qed.

(** X15: a node whose label contains [start], [begin] or [end] in any
    letter case, anywhere (as in [Send]), is classified [start],
    whatever its shape. *)
Theorem getNodeType_keyword_anywhere (node : GraphNode) (pre w suf : str) :
  n_label node = pre ++ w ++ suf ->
  In (map to_lower w) [s2l "start"; s2l "begin"; s2l "end"] ->
  getNodeType node = NtStart.
Proof.
  intros Hl Hw. unfold getNodeType. rewrite Hl, !map_app.
  destruct Hw as [H|[H|[H|[]]]]; rewrite <- H, includes_app, ?orb_true_r; reflexivity.
Qed.

Lemma cleanMermaidCode_header_witness :
  cleanMermaidCode (s2l "Graph" ++ s2l "  " ++ s2l "tD" ++ nl :: s2l " A --> B ")
  = trim (nl :: s2l " A --> B ").
Proof.
  apply cleanMermaidCode_header.
  - vm_compute. auto.
  - discriminate.
  - repeat constructor.
  - vm_compute. auto.
Defined.

Lemma parse_node_ids_distinct_witness : NoDup (map n_id (nodes sample_graph)).
Proof. apply (parse_node_ids_distinct sample_text). vm_compute. reflexivity. Defined.

Lemma parse_edge_forms_witness :
  e_id sample_edge = e_from sample_edge ++ s2l "-" ++ e_to sample_edge /\
  (e_type sample_edge = Some Arrow \/ e_type sample_edge = Some Dashed) /\
  e_style sample_edge = None /\ e_points sample_edge = None.
Proof.
  apply (parse_edge_forms sample_text sample_graph).
  - vm_compute. reflexivity.
  - vm_compute. left. reflexivity.
Defined.


Lemma fallback_boxes_inside_witness :
  exists p, n_position (nth 3 (nodes (lr_graph (fallbackLayout sample_graph))) (default_node []))
            = Some p /\
    n_size (nth 3 (nodes (lr_graph (fallbackLayout sample_graph))) (default_node []))
    = Some {| width := 120; height := 60 |} /\
    50 <= px p /\ px p + 120 <= b_width (lr_bounds (fallbackLayout sample_graph)) /\
    50 <= py p /\ py p + 60 <= b_height (lr_bounds (fallbackLayout sample_graph)).
Proof. apply (fallback_boxes_inside sample_graph 3). vm_compute. reflexivity. Defined.

Lemma fallback_boxes_disjoint_witness :
  exists pi pj,
    n_position (nth 0 (nodes (lr_graph (fallbackLayout sample_graph))) (default_node []))
    = Some pi /\
    n_position (nth 3 (nodes (lr_graph (fallbackLayout sample_graph))) (default_node []))
    = Some pj /\
    (px pi + 120 < px pj \/ px pj + 120 < px pi \/
     py pi + 60 < py pj \/ py pj + 60 < py pi).
Proof.
  apply (fallback_boxes_disjoint sample_graph 0 3).
  - discriminate.
  - vm_compute. reflexivity.
  - vm_compute. reflexivity.
Defined.


Lemma pinned_kept_by_engine_path_witness :
  exists n, In n [fromELKChild (original_nodes pinned_graph) (toELKChild pinned_node)] /\
    n_id n = n_id pinned_node /\
    n_position n = Some {| px := 500; py := 500 |} /\ n_isDragged n = Some true.
Proof.
  apply (pinned_kept_by_engine_path pinned_graph (convertToELKGraph pinned_graph)
           {| nodes := [fromELKChild (original_nodes pinned_graph) (toELKChild pinned_node)];
              edges := [] |}
           pinned_node {| px := 500; py := 500 |} (toELKChild pinned_node)).
  - vm_compute. repeat constructor. intros [].
  - left. reflexivity.
  - reflexivity.
  - reflexivity.
  - reflexivity.
  - left. reflexivity.
  - reflexivity.
  - reflexivity.
  - reflexivity.
Defined.

Lemma drag_sends_fixed_position_witness :
  c_x (nth 0 (elk_children (convertToELKGraph
          (handleNodeDrag (s2l "A") {| px := 10; py := 20 |} sample_graph)))
          (toELKChild (default_node []))) = Some 10 /\
  c_y (nth 0 (elk_children (convertToELKGraph
          (handleNodeDrag (s2l "A") {| px := 10; py := 20 |} sample_graph)))
          (toELKChild (default_node []))) = Some 20 /\
  c_layoutOptions (nth 0 (elk_children (convertToELKGraph
          (handleNodeDrag (s2l "A") {| px := 10; py := 20 |} sample_graph)))
          (toELKChild (default_node [])))
  = Some [(s2l "elk.position", s2l "fixed")].
Proof.
  apply (drag_sends_fixed_position (s2l "A") {| px := 10; py := 20 |} sample_graph).
  - vm_compute. left. reflexivity.
  - vm_compute. reflexivity.
Defined.

Lemma fallback_draws_parsed_edges_witness :
  exists v, renderEdge (lr_graph (fallbackLayout sample_graph)) sample_edge = Some v.
Proof.
  apply (fallback_draws_parsed_edges sample_text sample_graph).
  - vm_compute. reflexivity.
  - vm_compute. left. reflexivity.
Defined.

Lemma getNodeType_keyword_anywhere_witness :
  getNodeType (mk_node (s2l "S") (s2l "Send email") Diamond) = NtStart.
Proof.
  apply (getNodeType_keyword_anywhere _ (s2l "S") (s2l "end") (s2l " email")).
  - reflexivity.
  - vm_compute. auto.
Defined.
